(** * The hotel voice agent's browser client (hotel-agent/app)

    A shallow embedding of the [Home] component of the Next.js client:
    its React state and refs, the browser objects it drives (audio
    elements, speech recognition, timers), and its handlers [startCall],
    [handleUserSpeech], [playAudio], [endCall], [addLog] together with
    the callbacks it registers ([onstart], [onresult], [onended]).

    Conventions.
    - A JS string is a Rocq [string]; a character stands for one code
      unit, so the model covers code units below 256.
    - [useState] cells and [useRef] cells are fields of one record.  A
      handler reads a state cell only through the closure it was created
      in, so the one cell the handlers read, [sessionId], is passed to
      them as an argument (the value of the render that created the
      closure); the setters write the record.
    - An [async] function is a resumption: it either finishes or stops at
      an [await] with the request it waits for and what it does next.
    - Everything the component does to the outside (requests, alerts,
      console output, calls on browser objects) is appended to [trace]
      in program order. *)

From stdpp Require Import base strings list pretty.
From Stdlib Require Import ZArith Lia.

Local Open Scope string_scope.
Local Open Scope Z_scope.
Local Open Scope list_scope.

(** ** JavaScript values the code inspects *)

(** [type CallStatus = "IDLE" | "LISTENING" | "PROCESSING" | "SPEAKING" | "SAVING"] *)
Inductive CallStatus : Set :=
| IDLE | LISTENING | PROCESSING | SPEAKING | SAVING.

#[global] Instance CallStatus_eq_dec : EqDecision CallStatus.
Proof. solve_decision. Defined.

(** A parsed JSON value whose type the code does not fix (the [error]
    field of a reply).  A missing field reads as [JsUndefined]; arrays
    and objects are [JsObject]; JSON numbers are kept as integers. *)
Inductive JsValue : Type :=
| JsUndefined
| JsNull
| JsBool (b : bool)
| JsNumber (n : Z)
| JsString (s : string)
| JsObject.

Definition is_empty (s : string) : bool :=
  match s with EmptyString => true | String _ _ => false end.

(** ToBoolean, as [if (v)] and [!v] apply it. *)
Definition truthy (v : JsValue) : bool :=
  match v with
  | JsUndefined | JsNull => false
  | JsBool b => b
  | JsNumber n => negb (n =? 0)
  | JsString s => negb (is_empty s)
  | JsObject => true
  end.

(** A [string | null] cell seen as a JS value. *)
Definition of_nullable (o : option string) : JsValue :=
  match o with Some s => JsString s | None => JsNull end.

(** White space and line terminators that [String.prototype.trim]
    strips, among the code units below 256: TAB, LF, VT, FF, CR, SP and
    NBSP. *)
Definition isWhiteSpace (c : Ascii.ascii) : bool :=
  match Ascii.N_of_ascii c with
  | 9%N | 10%N | 11%N | 12%N | 13%N | 32%N | 160%N => true
  | _ => false
  end.

Fixpoint trimStart (s : string) : string :=
  match s with
  | EmptyString => EmptyString
  | String c s' => if isWhiteSpace c then trimStart s' else s
  end.

Fixpoint trimEnd (s : string) : string :=
  match s with
  | EmptyString => EmptyString
  | String c s' =>
      let t := trimEnd s' in
      if isWhiteSpace c && is_empty t then EmptyString else String c t
  end.

Definition trim (s : string) : string := trimEnd (trimStart s).

(** An utterance made of white space only (the empty one included). *)
Fixpoint whitespace_only (s : string) : bool :=
  match s with
  | EmptyString => true
  | String c s' => isWhiteSpace c && whitespace_only s'
  end.

(** ** The backend as the client sees it *)

(** [process.env.NEXT_PUBLIC_API_URL || "http://localhost:8000"] *)
Definition API_URL (NEXT_PUBLIC_API_URL : option string) : string :=
  match NEXT_PUBLIC_API_URL with
  | Some u => if is_empty u then "http://localhost:8000" else u
  | None => "http://localhost:8000"
  end.

(** What [fetch] is called with.  The path is relative to [API_URL]; a
    body is the object given to [JSON.stringify], key by key in the
    order the literal lists them.  Every POST of the client also carries
    the JSON content type header, which is left out here. *)
Inductive Request : Type :=
| GET (path : string)
| POST (path : string) (body : list (string * JsValue)).

Definition request_url (env : option string) (r : Request) : string :=
  match r with
  | GET p | POST p _ => API_URL env +:+ p
  end.

(** The object [await res.json()] yields, with the fields the client
    reads from it, each at the type of the place it is passed to. *)
Record Data : Type := {
  data_session_id : option string;   (* data.session_id *)
  data_text : string;                (* data.text *)
  data_audio_url : string;           (* data.audio_url *)
  data_error : JsValue;              (* data.error *)
}.

(** How an awaited [fetch] (and the [res.json()] after it, where the
    code has one) comes back: the promise rejects, or it resolves and the
    body parses to an object or does not. *)
Inductive FetchOutcome : Type :=
| Rejected
| Resolved (body : option Data).

(** ** Browser objects *)

(** An [HTMLAudioElement]: its [src] and whether it is playing (not
    paused and not ended). *)
Record Audio : Type := { src : string; playing : bool }.

(** The settings [useEffect] gives the recognition object. *)
Record Recognition : Type := {
  continuous : bool;
  interimResults : bool;
  lang : string;
}.

(** One line of the on-screen log, [{ sender, text }]. *)
Record LogEntry : Type := { sender : string; text : string }.

(** What the component does to the outside, in program order. *)
Inductive Effect : Type :=
| Fetch (r : Request)
| Alert (msg : string)
| ConsoleError (msg : string)
| ConsoleErrorCaught                      (* console.error(e) *)
| AudioPause (h : nat)
| AudioPlay (h : nat)
| RecognitionStart
| RecognitionStop
| ClearTimeout (t : nat)
| SetTimeout (t : nat) (ms : Z)
| UncaughtTypeError.

(** ** The component's state *)

Record Home : Type := {
  (* useState *)
  callStatus : CallStatus;
  transcript : string;
  logs : list LogEntry;
  sessionId : option string;
  (* useRef *)
  audioRef : option nat;                  (* handle into [audios] *)
  recognitionRef : option Recognition;
  silenceTimerRef : option nat;           (* timer id, tested as a number *)
  accumulatedTextRef : string;
  (* the browser *)
  audios : list Audio;                    (* every element created so far *)
  clock : Z;                              (* what Date.now() returns *)
  trace : list Effect;
}.

(** The state of a freshly mounted component. *)
Definition initial (now : Z) : Home := {|
  callStatus := IDLE;
  transcript := "Click 'Start Conversation' to begin...";
  logs := [];
  sessionId := None;
  audioRef := None;
  recognitionRef := None;
  silenceTimerRef := None;
  accumulatedTextRef := "";
  audios := [];
  clock := now;
  trace := [];
|}.

Definition setCallStatus (v : CallStatus) (st : Home) : Home :=
  {| callStatus := v; transcript := transcript st; logs := logs st;
     sessionId := sessionId st; audioRef := audioRef st;
     recognitionRef := recognitionRef st; silenceTimerRef := silenceTimerRef st;
     accumulatedTextRef := accumulatedTextRef st; audios := audios st;
     clock := clock st; trace := trace st |}.

Definition setTranscript (v : string) (st : Home) : Home :=
  {| callStatus := callStatus st; transcript := v; logs := logs st;
     sessionId := sessionId st; audioRef := audioRef st;
     recognitionRef := recognitionRef st; silenceTimerRef := silenceTimerRef st;
     accumulatedTextRef := accumulatedTextRef st; audios := audios st;
     clock := clock st; trace := trace st |}.

(** [setLogs] always receives an updater or a constant; both are a
    function of the previous list. *)
Definition setLogs (f : list LogEntry -> list LogEntry) (st : Home) : Home :=
  {| callStatus := callStatus st; transcript := transcript st; logs := f (logs st);
     sessionId := sessionId st; audioRef := audioRef st;
     recognitionRef := recognitionRef st; silenceTimerRef := silenceTimerRef st;
     accumulatedTextRef := accumulatedTextRef st; audios := audios st;
     clock := clock st; trace := trace st |}.

Definition setSessionId (v : option string) (st : Home) : Home :=
  {| callStatus := callStatus st; transcript := transcript st; logs := logs st;
     sessionId := v; audioRef := audioRef st;
     recognitionRef := recognitionRef st; silenceTimerRef := silenceTimerRef st;
     accumulatedTextRef := accumulatedTextRef st; audios := audios st;
     clock := clock st; trace := trace st |}.

Definition set_audioRef (v : option nat) (st : Home) : Home :=
  {| callStatus := callStatus st; transcript := transcript st; logs := logs st;
     sessionId := sessionId st; audioRef := v;
     recognitionRef := recognitionRef st; silenceTimerRef := silenceTimerRef st;
     accumulatedTextRef := accumulatedTextRef st; audios := audios st;
     clock := clock st; trace := trace st |}.

Definition set_recognitionRef (v : option Recognition) (st : Home) : Home :=
  {| callStatus := callStatus st; transcript := transcript st; logs := logs st;
     sessionId := sessionId st; audioRef := audioRef st;
     recognitionRef := v; silenceTimerRef := silenceTimerRef st;
     accumulatedTextRef := accumulatedTextRef st; audios := audios st;
     clock := clock st; trace := trace st |}.

Definition set_silenceTimerRef (v : option nat) (st : Home) : Home :=
  {| callStatus := callStatus st; transcript := transcript st; logs := logs st;
     sessionId := sessionId st; audioRef := audioRef st;
     recognitionRef := recognitionRef st; silenceTimerRef := v;
     accumulatedTextRef := accumulatedTextRef st; audios := audios st;
     clock := clock st; trace := trace st |}.

Definition set_accumulatedTextRef (v : string) (st : Home) : Home :=
  {| callStatus := callStatus st; transcript := transcript st; logs := logs st;
     sessionId := sessionId st; audioRef := audioRef st;
     recognitionRef := recognitionRef st; silenceTimerRef := silenceTimerRef st;
     accumulatedTextRef := v; audios := audios st;
     clock := clock st; trace := trace st |}.

Definition set_audios (f : list Audio -> list Audio) (st : Home) : Home :=
  {| callStatus := callStatus st; transcript := transcript st; logs := logs st;
     sessionId := sessionId st; audioRef := audioRef st;
     recognitionRef := recognitionRef st; silenceTimerRef := silenceTimerRef st;
     accumulatedTextRef := accumulatedTextRef st; audios := f (audios st);
     clock := clock st; trace := trace st |}.

Definition set_clock (v : Z) (st : Home) : Home :=
  {| callStatus := callStatus st; transcript := transcript st; logs := logs st;
     sessionId := sessionId st; audioRef := audioRef st;
     recognitionRef := recognitionRef st; silenceTimerRef := silenceTimerRef st;
     accumulatedTextRef := accumulatedTextRef st; audios := audios st;
     clock := v; trace := trace st |}.

(** Record one action on the outside. *)
Definition emit (e : Effect) (st : Home) : Home :=
  {| callStatus := callStatus st; transcript := transcript st; logs := logs st;
     sessionId := sessionId st; audioRef := audioRef st;
     recognitionRef := recognitionRef st; silenceTimerRef := silenceTimerRef st;
     accumulatedTextRef := accumulatedTextRef st; audios := audios st;
     clock := clock st; trace := trace st ++ [e] |}.

(** [setCallStatus(prev => f(prev))] *)
Definition updateCallStatus (f : CallStatus -> CallStatus) (st : Home) : Home :=
  setCallStatus (f (callStatus st)) st.

(** ** Calls on browser objects *)

Definition set_playing (b : bool) (a : Audio) : Audio :=
  {| src := src a; playing := b |}.

(** [audio.pause()] *)
Definition audio_pause (h : nat) (st : Home) : Home :=
  emit (AudioPause h) (set_audios (alter (set_playing false) h) st).

(** [audio.play()]; a later rejection of the promise it returns is the
    event [PlayRejected] below. *)
Definition audio_play (h : nat) (st : Home) : Home :=
  emit (AudioPlay h) (set_audios (alter (set_playing true) h) st).

(** [new Audio(url)]: a fresh element, not playing; its handle is its
    position in the store. *)
Definition new_Audio (url : string) (st : Home) : nat * Home :=
  (length (audios st),
   set_audios (fun l => l ++ [{| src := url; playing := false |}]) st).

(** ** The handlers *)

(** An [async] function in flight: finished with a state, or waiting at
    an [await] for [req], to go on with [k] on the outcome and on the
    state as it is then. *)
Inductive Async : Type :=
| Done (st : Home)
| Await (st : Home) (req : Request) (k : FetchOutcome -> Home -> Async).

(** [setLogs((prev) => [...prev, { sender, text }])] *)
Definition addLog (sender text : string) (st : Home) : Home :=
  setLogs (fun prev => prev ++ [{| sender := sender; text := text |}]) st.

Definition playAudio (url textDisplay : string) (st : Home) : Home :=
  let st := setCallStatus SPEAKING st in
  let st := addLog "Aria" textDisplay st in
  let st := setTranscript textDisplay st in
  let st := match audioRef st with
            | Some h => audio_pause h st
            | None => st
            end in
  let (audio, st) := new_Audio (url +:+ "?t=" +:+ pretty (clock st)) st in
  let st := set_audioRef (Some audio) st in
  audio_play audio st.

(** The [onended] callback [playAudio] gives every element it creates. *)
Definition onended (st : Home) : Home :=
  let st := setCallStatus LISTENING st in
  let st := set_accumulatedTextRef "" st in
  match recognitionRef st with
  | Some _ => emit RecognitionStart st
  | None => emit UncaughtTypeError st
  end.

Definition startCall (st : Home) : Async :=
  let st := setCallStatus PROCESSING st in
  let st := setTranscript "Connecting to Aria..." st in
  let st := setLogs (fun _ => []) st in
  let req := GET "/greet" in
  Await (emit (Fetch req) st) req
    (fun res st =>
       match res with
       | Resolved (Some data) =>
           let st := setSessionId (data_session_id data) st in
           Done (playAudio (data_audio_url data) (data_text data) st)
       | _ =>
           let st := emit ConsoleErrorCaught st in
           let st := setTranscript "Error connecting to server." st in
           Done (setCallStatus IDLE st)
       end).

Definition handleUserSpeech (sessionId : option string) (text : string)
    (st : Home) : Async :=
  if negb (truthy (JsString (trim text))) || negb (truthy (of_nullable sessionId))
  then Done st
  else
    let st := setCallStatus PROCESSING st in
    let st := addLog "Guest" text st in
    let req := POST "/chat" [("text", JsString text);
                             ("session_id", of_nullable sessionId)] in
    Await (emit (Fetch req) st) req
      (fun res st =>
         match res with
         | Resolved (Some data) =>
             if truthy (data_error data) then
               let st := emit (Alert "Session Expired.") st in
               Done (setCallStatus IDLE st)
             else
               Done (playAudio (data_audio_url data) (data_text data) st)
         | _ =>
             let st := setTranscript "Connection Error." st in
             Done (setCallStatus IDLE st)
         end).

(** The tail of [endCall], after the [if (sessionId)] block. *)
Definition reset_after_save (st : Home) : Home :=
  let st := setCallStatus IDLE st in
  setTranscript "Call Ended. Log saved." st.

Definition endCall (sessionId : option string) (st : Home) : Async :=
  let st := match audioRef st with
            | Some h => audio_pause h st
            | None => st
            end in
  let st := match recognitionRef st with
            | Some _ => emit RecognitionStop st
            | None => st
            end in
  let st := match silenceTimerRef st with
            | Some t =>
                if truthy (JsNumber (Z.of_nat t))
                then emit (ClearTimeout t) st
                else st
            | None => st
            end in
  let st := setCallStatus SAVING st in
  let st := setTranscript "Saving call summary to CRM..." st in
  if truthy (of_nullable sessionId) then
    let req := POST "/end_call" [("session_id", of_nullable sessionId)] in
    Await (emit (Fetch req) st) req
      (fun res st =>
         let st := match res with
                   | Rejected => emit (ConsoleError "Failed to save log") st
                   | Resolved _ => st
                   end in
         let st := setSessionId None st in
         Done (reset_after_save st))
  else Done (reset_after_save st).

(** *** Speech recognition callbacks *)

(** The body of the [useEffect]; [supported] tells whether the window
    has a recognition constructor. *)
Definition useEffect (supported : bool) (st : Home) : Home :=
  if supported then
    set_recognitionRef
      (Some {| continuous := true; interimResults := true; lang := "en-US" |}) st
  else st.

Definition onstart (st : Home) : Home :=
  updateCallStatus
    (fun prev => match prev with SAVING => SAVING | _ => LISTENING end) st.

(** The text [onresult] gathers: the first alternative of every result
    from [resultIndex] on. *)
Definition currentTranscript (resultIndex : nat) (results : list string) : string :=
  foldl (fun acc r => acc +:+ r) "" (drop resultIndex results).

(** [onresult]; [timer] is the id the new [setTimeout] returns.  The
    timer ref is tested as the number it holds, so an id 0 is not
    cleared. *)
Definition onresult (resultIndex : nat) (results : list string) (timer : nat)
    (st : Home) : Home :=
  let st := setTranscript (currentTranscript resultIndex results) st in
  let st := match silenceTimerRef st with
            | Some t =>
                if truthy (JsNumber (Z.of_nat t))
                then emit (ClearTimeout t) st
                else st
            | None => st
            end in
  set_silenceTimerRef (Some timer) (emit (SetTimeout timer 2000) st).

(** The callback of that timer, with the session id and the text its
    closure holds. *)
Definition silenceTimeout (sessionId : option string) (text : string)
    (st : Home) : Async :=
  match recognitionRef st with
  | None => Done (emit UncaughtTypeError st)
  | Some _ =>
      let st := emit RecognitionStop st in
      let st := set_accumulatedTextRef text st in
      handleUserSpeech sessionId text st
  end.

(** *** What is on screen *)

(** The one control the render shows, by status. *)
Inductive Control : Set :=
| StartConversation       (* onClick={startCall} *)
| SavingToCRM             (* disabled *)
| EndCallAndSave.         (* onClick={endCall} *)

Definition control (s : CallStatus) : Control :=
  match s with
  | IDLE => StartConversation
  | SAVING => SavingToCRM
  | _ => EndCallAndSave
  end.

(** ** The component over time *)

(** A continuation parked at an [await]. *)
Definition Cont : Type := FetchOutcome -> Home -> Async.

(** The component together with the requests in flight. *)
Record World : Type := {
  home : Home;
  pending : list (Request * Cont);
}.

(** The state an [async] function leaves when it yields control, by
    finishing or by suspending. *)
Definition state_of (a : Async) : Home :=
  match a with
  | Done st => st
  | Await st _ _ => st
  end.

(** Run an [async] function up to the point where it yields. *)
Definition launch (a : Async) (ps : list (Request * Cont)) : World :=
  match a with
  | Done st => {| home := st; pending := ps |}
  | Await st req k => {| home := st; pending := ps ++ [(req, k)] |}
  end.

(** What can happen to a mounted component.  The speech events carry
    what their closures captured; nothing restricts when the browser
    delivers them, so every schedule of the real component is one of
    these runs. *)
Inductive Event : Type :=
| EffectRuns (supported : bool)
| ClickStart
| ClickEnd
| RecognitionStarted
| RecognitionResult (resultIndex : nat) (results : list string) (timer : nat)
| SilenceElapsed (sid : option string) (text : string)
| AudioEnded (h : nat)
| PlayRejected (h : nat)
| Settled (i : nat) (outcome : FetchOutcome)
| Tick (now : Z).

(** The browser's own part of the end of a playback: the element stops
    playing before its [onended] runs. *)
Definition stop_playing (h : nat) (st : Home) : Home :=
  set_audios (alter (set_playing false) h) st.

Definition step (e : Event) (w : World) : World :=
  let st := home w in
  let ps := pending w in
  match e with
  | EffectRuns supported => {| home := useEffect supported st; pending := ps |}
  | ClickStart =>
      match control (callStatus st) with
      | StartConversation => launch (startCall st) ps
      | _ => w
      end
  | ClickEnd =>
      match control (callStatus st) with
      | EndCallAndSave => launch (endCall (sessionId st) st) ps
      | _ => w
      end
  | RecognitionStarted => {| home := onstart st; pending := ps |}
  | RecognitionResult i rs t => {| home := onresult i rs t st; pending := ps |}
  | SilenceElapsed sid text => launch (silenceTimeout sid text st) ps
  | AudioEnded h =>
      match audios st !! h with
      | Some a =>
          if playing a
          then {| home := onended (stop_playing h st); pending := ps |}
          else w
      | None => w
      end
  | PlayRejected h =>
      match audios st !! h with
      | Some _ =>
          {| home := emit (ConsoleError "Audio play failed:") (stop_playing h st);
             pending := ps |}
      | None => w
      end
  | Settled i outcome =>
      match ps !! i with
      | Some (_, k) => launch (k outcome st) (delete i ps)
      | None => w
      end
  | Tick now => {| home := set_clock now st; pending := ps |}
  end.

Definition mounted (now : Z) : World := {| home := initial now; pending := [] |}.

Inductive reachable : World -> Prop :=
| reach_mounted now : reachable (mounted now)
| reach_step e w : reachable w -> reachable (step e w).

(** The component after a sequence of events, first to last. *)
Definition run (es : list Event) (w : World) : World :=
  foldl (fun w e => step e w) w es.

(** ** Observations *)

(** The requests among a run of effects. *)
Fixpoint fetches (tr : list Effect) : list Request :=
  match tr with
  | [] => []
  | Fetch r :: tr' => r :: fetches tr'
  | _ :: tr' => fetches tr'
  end.

(** The alerts among a run of effects. *)
Fixpoint alerts (tr : list Effect) : list string :=
  match tr with
  | [] => []
  | Alert m :: tr' => m :: alerts tr'
  | _ :: tr' => alerts tr'
  end.

(** What a run of effects tells the user or the console: the alerts,
    the console lines and the errors nothing caught. *)
Fixpoint reported (tr : list Effect) : list Effect :=
  match tr with
  | [] => []
  | Alert m :: tr' => Alert m :: reported tr'
  | ConsoleError m :: tr' => ConsoleError m :: reported tr'
  | ConsoleErrorCaught :: tr' => ConsoleErrorCaught :: reported tr'
  | UncaughtTypeError :: tr' => UncaughtTypeError :: reported tr'
  | _ :: tr' => reported tr'
  end.

(** Modelled from the spec: the chat endpoint belongs to the backend,
    which is not among the sources.  By the interface of section 6 a chat
    turn is answered with a reply, or with an [error] field when the
    session is unknown or expired; by section 7 every other failure of a
    turn is a retry-later failure.  So an outcome that carries an error
    tells of session absence, and a request that fails or a body that is
    no reply tells of another failure. *)
Inductive TurnCause : Set :=
| NoFailure
| SessionAbsence
| OtherFailure.

Definition cause_of (o : FetchOutcome) : TurnCause :=
  match o with
  | Resolved (Some data) =>
      if truthy (data_error data) then SessionAbsence else NoFailure
  | _ => OtherFailure
  end.

(** The log still starts with [l0]. *)
Definition log_extends (l0 : list LogEntry) (st : Home) : Prop :=
  l0 `prefix_of` logs st.

(** How many times recognition was started. *)
Fixpoint starts (tr : list Effect) : nat :=
  match tr with
  | [] => 0%nat
  | RecognitionStart :: tr' => S (starts tr')
  | _ :: tr' => starts tr'
  end.

(** Recognition was started [n] times so far. *)
Definition started (n : nat) (st : Home) : Prop := starts (trace st) = n.

(** The number of elements playing. *)
Definition playing_count (l : list Audio) : nat :=
  length (filter (fun a => playing a = true) l).

(** Only the element [audioRef] points to may be playing. *)
Definition only_current_plays (st : Home) : Prop :=
  forall h a, audios st !! h = Some a -> playing a = true -> audioRef st = Some h.

(** The store once the element [audioRef] points to, if any, is paused. *)
Definition paused_store (st : Home) : list Audio :=
  match audioRef st with
  | Some h => alter (set_playing false) h (audios st)
  | None => audios st
  end.

Definition pause_effects (st : Home) : list Effect :=
  match audioRef st with
  | Some h => [AudioPause h]
  | None => []
  end.

(** What [endCall] does to the browser objects before it saves. *)
Definition hang_up_effects (st : Home) : list Effect :=
  pause_effects st ++
  match recognitionRef st with
  | Some _ => [RecognitionStop]
  | None => []
  end ++
  match silenceTimerRef st with
  | Some t => if truthy (JsNumber (Z.of_nat t)) then [ClearTimeout t] else []
  | None => []
  end.

(** Every continuation an [async] function may still run keeps [P]. *)
Fixpoint async_ok (P : Home -> Prop) (a : Async) : Prop :=
  match a with
  | Done _ => True
  | Await _ _ k =>
      forall o st, (P st -> P (state_of (k o st))) /\ async_ok P (k o st)
  end.

Definition cont_ok (P : Home -> Prop) (k : Cont) : Prop :=
  forall o st, (P st -> P (state_of (k o st))) /\ async_ok P (k o st).

Definition conts_ok (P : Home -> Prop) (w : World) : Prop :=
  Forall (fun p => cont_ok P p.2) (pending w).

(** ** Rendering *)

(** [getCardGlow]: the classes of the card, by status. *)
Definition getCardGlow (callStatus : CallStatus) : string :=
  match callStatus with
  | LISTENING => "shadow-[0_0_60px_-15px_rgba(52,211,153,0.3)] border-emerald-500/20"
  | SPEAKING => "shadow-[0_0_60px_-15px_rgba(99,102,241,0.3)] border-indigo-500/20"
  | PROCESSING => "shadow-[0_0_60px_-15px_rgba(168,85,247,0.3)] border-purple-500/20"
  | SAVING => "shadow-[0_0_60px_-15px_rgba(251,191,36,0.3)] border-amber-500/20"
  | _ => "shadow-[0_20px_40px_-15px_rgba(0,0,0,0.05)] border-white/40"
  end.

(** The three flags [Orb] computes from its [state]. *)
Definition isActive (state : CallStatus) : bool :=
  bool_decide (state = SPEAKING) || bool_decide (state = PROCESSING).
Definition isListening (state : CallStatus) : bool :=
  bool_decide (state = LISTENING).
Definition isSaving (state : CallStatus) : bool :=
  bool_decide (state = SAVING).

(** [className] of the blurred halo of [Orb]. *)
Definition Orb_halo (state : CallStatus) : string :=
  "w-48 h-48 rounded-full blur-3xl absolute transition-all duration-1000 ease-in-out " +:+
  (if isActive state then "bg-indigo-500/40 scale-125 opacity-70"
   else if isListening state then "bg-emerald-400/30 scale-110 opacity-50"
   else if isSaving state then "bg-amber-400/30 scale-100 opacity-60"
   else "bg-slate-300/20 scale-90 opacity-30").

(** [className] of the sphere of [Orb]. *)
Definition Orb_sphere (state : CallStatus) : string :=
  "w-32 h-32 rounded-full shadow-[0_0_80px_-20px_rgba(0,0,0,0.3)] z-10 transition-all duration-700 ease-[cubic-bezier(0.34,1.56,0.64,1)] flex items-center justify-center border border-white/20 backdrop-blur-md " +:+
  (if isActive state
   then "bg-gradient-to-br from-indigo-500 via-purple-500 to-pink-500 animate-pulse scale-110 shadow-indigo-500/50"
   else if isListening state
   then "bg-gradient-to-br from-emerald-400 to-cyan-500 scale-100 shadow-emerald-500/40"
   else if isSaving state
   then "bg-gradient-to-br from-amber-300 to-orange-400 animate-pulse scale-95 shadow-amber-500/40"
   else "bg-gradient-to-b from-slate-100 to-slate-300 scale-95 grayscale shadow-xl").

(** The row class of a log line: the guest on the right, everyone else
    on the left. *)
Definition log_row (log : LogEntry) : string :=
  "flex " +:+ (if bool_decide (sender log = "Guest") then "justify-end" else "justify-start").

(** ** More observations *)

(** The timers set and not cleared, oldest first, after [tr] when [live]
    were so before. *)
Fixpoint outstanding_after (live : list nat) (tr : list Effect) : list nat :=
  match tr with
  | [] => live
  | SetTimeout t _ :: tr' => outstanding_after (live ++ [t]) tr'
  | ClearTimeout t :: tr' => outstanding_after (filter (fun x => x <> t) live) tr'
  | _ :: tr' => outstanding_after live tr'
  end.

Definition outstanding (tr : list Effect) : list nat := outstanding_after [] tr.

(** The ids [setTimeout] returned were positive, as a browser's are. *)
Definition positive_timer (e : Effect) : Prop :=
  match e with
  | SetTimeout t _ => t <> 0%nat
  | _ => True
  end.

Definition timer_ids_positive (tr : list Effect) : Prop :=
  Forall positive_timer tr.

(** As long as the timer ids were positive, no timer is outstanding but
    the one [silenceTimerRef] holds. *)
Definition one_timer (st : Home) : Prop :=
  timer_ids_positive (trace st) ->
  outstanding (trace st) = [] \/
  exists t, silenceTimerRef st = Some t /\ t <> 0%nat /\
            outstanding (trace st) = [t].

(** The utterance a chat request carries: the first field of the body of
    a POST to /chat. *)
Definition chat_text (e : Effect) : option string :=
  match e with
  | Fetch (POST path ((_, JsString t) :: _)) =>
      if bool_decide (path = "/chat") then Some t else None
  | _ => None
  end.

Definition chat_texts (tr : list Effect) : list string := omap chat_text tr.

(** The guest's lines of a log, in order. *)
Definition guest_texts (l : list LogEntry) : list string :=
  text <$> filter (fun e => sender e = "Guest") l.

(** The guest's lines on screen are the last utterances sent. *)
Definition guest_lines_sent (st : Home) : Prop :=
  guest_texts (logs st) `suffix_of` chat_texts (trace st).

(** Every line is the guest's or Aria's. *)
Definition known_senders (st : Home) : Prop :=
  Forall (fun e => sender e = "Guest" \/ sender e = "Aria") (logs st).

(** How many calls on a missing recognition object failed. *)
Fixpoint type_errors (tr : list Effect) : nat :=
  match tr with
  | [] => 0%nat
  | UncaughtTypeError :: tr' => S (type_errors tr')
  | _ :: tr' => type_errors tr'
  end.

(** The recognition object, when there is one, has the settings the
    effect gives it. *)
Definition configured (st : Home) : Prop :=
  forall r, recognitionRef st = Some r ->
    continuous r = true /\ interimResults r = true /\ lang r = "en-US".

(** [audioRef] holds the element created last. *)
Definition current_is_newest (st : Home) : Prop :=
  match audioRef st with
  | Some h => length (audios st) = S h
  | None => audios st = []
  end.

(** The request sent last among those in flight. *)
Definition last_request (w : World) : option Request := last (fst <$> pending w).

(** While the status is PROCESSING or SAVING the request it waits for is
    in flight. *)
Definition busy_in_flight (w : World) : Prop :=
  match callStatus (home w) with
  | PROCESSING =>
      last_request w = Some (GET "/greet") \/
      exists body, last_request w = Some (POST "/chat" body)
  | SAVING => exists body, last_request w = Some (POST "/end_call" body)
  | _ => True
  end.

(** A request the backend expects: the greeting, a chat turn with an
    utterance that is not blank and a session id that is not empty, or
    an end of call with such a session id. *)
Definition well_formed (r : Request) : Prop :=
  match r with
  | GET path => path = "/greet"
  | POST path body =>
      (path = "/chat" /\
       exists u s, body = [("text", JsString u); ("session_id", JsString s)] /\
                   whitespace_only u = false /\ s <> "") \/
      (path = "/end_call" /\
       exists s, body = [("session_id", JsString s)] /\ s <> "")
  end.

Definition requests_well_formed (st : Home) : Prop :=
  Forall well_formed (fetches (trace st)).

(** ** What the component can do in one go *)

(** The state [endCall] leaves behind it before it saves. *)
Definition hung_up (st : Home) : Home :=
  {| callStatus := SAVING;
     transcript := "Saving call summary to CRM...";
     logs := logs st;
     sessionId := sessionId st;
     audioRef := audioRef st;
     recognitionRef := recognitionRef st;
     silenceTimerRef := silenceTimerRef st;
     accumulatedTextRef := accumulatedTextRef st;
     audios := paused_store st;
     clock := clock st;
     trace := trace st ++ hang_up_effects st |}.

(** The ways a continuation ends, from the state it resumes in: the
    three of [handleUserSpeech], the two of [startCall], the two of
    [endCall]. *)
Inductive settles : Home -> Home -> Prop :=
| settles_replied d st :
    settles st (playAudio (data_audio_url d) (data_text d) st)
| settles_expired st :
    settles st (setCallStatus IDLE (emit (Alert "Session Expired.") st))
| settles_chat_failed st :
    settles st (setCallStatus IDLE (setTranscript "Connection Error." st))
| settles_greeted d st :
    settles st (playAudio (data_audio_url d) (data_text d)
                  (setSessionId (data_session_id d) st))
| settles_greet_failed st :
    settles st (setCallStatus IDLE
                  (setTranscript "Error connecting to server."
                     (emit ConsoleErrorCaught st)))
| settles_saved st :
    settles st (reset_after_save (setSessionId None st))
| settles_save_failed st :
    settles st (reset_after_save
                  (setSessionId None
                     (emit (ConsoleError "Failed to save log") st))).

(** The ways the component's state changes in one event. *)
Inductive moves : Home -> Home -> Prop :=
| moves_effect supported st :
    moves st (useEffect supported st)
| moves_start st :
    callStatus st = IDLE ->
    moves st (emit (Fetch (GET "/greet"))
                (setLogs (fun _ => [])
                   (setTranscript "Connecting to Aria..."
                      (setCallStatus PROCESSING st))))
| moves_end_saving st :
    truthy (of_nullable (sessionId st)) = true ->
    moves st (emit (Fetch (POST "/end_call"
                             [("session_id", of_nullable (sessionId st))]))
                (hung_up st))
| moves_end_at_once st :
    truthy (of_nullable (sessionId st)) = false ->
    moves st (reset_after_save (hung_up st))
| moves_onstart st :
    moves st (onstart st)
| moves_onresult resultIndex results timer st :
    moves st (onresult resultIndex results timer st)
| moves_silence_no_recognition st :
    recognitionRef st = None ->
    moves st (emit UncaughtTypeError st)
| moves_silence_dropped sid utterance st :
    recognitionRef st <> None ->
    whitespace_only utterance = true \/ truthy (of_nullable sid) = false ->
    moves st (set_accumulatedTextRef utterance (emit RecognitionStop st))
| moves_silence_sent sid utterance st :
    recognitionRef st <> None ->
    whitespace_only utterance = false ->
    truthy (of_nullable sid) = true ->
    moves st (emit (Fetch (POST "/chat" [("text", JsString utterance);
                                         ("session_id", of_nullable sid)]))
                (addLog "Guest" utterance
                   (setCallStatus PROCESSING
                      (set_accumulatedTextRef utterance
                         (emit RecognitionStop st)))))
| moves_ended h a st :
    audios st !! h = Some a -> playing a = true ->
    moves st (onended (stop_playing h st))
| moves_play_rejected h a st :
    audios st !! h = Some a ->
    moves st (emit (ConsoleError "Audio play failed:") (stop_playing h st))
| moves_settled st st' :
    settles st st' -> moves st st'
| moves_tick now st :
    moves st (set_clock now st).

(** A continuation in flight only ever ends in one of the ways of
    [settles]. *)
Definition async_settles (a : Async) : Prop :=
  match a with
  | Done _ => True
  | Await _ _ k =>
      forall o st, exists st', k o st = Done st' /\ settles st st'
  end.

Definition conts_settle (w : World) : Prop :=
  Forall (fun p => forall o st, exists st', p.2 o st = Done st' /\ settles st st')
         (pending w).

(** Evaluate the setters and the calls on browser objects, innermost
    first. *)
Ltac reveal :=
  cbv beta iota zeta delta
    [reset_after_save onended onstart onresult useEffect
     updateCallStatus addLog audio_play audio_pause new_Audio
     stop_playing emit setCallStatus setTranscript setLogs setSessionId
     set_audioRef set_recognitionRef set_silenceTimerRef
     set_accumulatedTextRef set_audios set_clock state_of
     callStatus transcript logs sessionId audioRef recognitionRef
     silenceTimerRef accumulatedTextRef audios clock trace];
  repeat match goal with
    | |- context [truthy (JsNumber (Z.of_nat (S ?n)))] =>
        change (truthy (JsNumber (Z.of_nat (S n)))) with true
    | |- context [truthy (JsNumber (Z.of_nat 0))] =>
        change (truthy (JsNumber (Z.of_nat 0))) with false
    end;
  cbv beta iota.

(** Split a move into its cases, the outcomes of a settled request
    included. *)
Ltac move_cases M :=
  destruct M as [supported st|st Hs|st Hsid|st Hsid|st|i rs t st|st Hr
                |sid u st Hr Hg|sid u st Hr Hws Hsid|h a st Ha Hp|h a st Ha
                |st st' Hset|now st];
  [destruct supported| | | | | | | | | | |
   destruct Hset as [d st|st|st|d st|st|st|st] | ];
  unfold hung_up.

(** Name the cells of a state, its three optional refs by case. *)
Ltac open_state st :=
  destruct st as [cs tr lg s0 [ah|] [r|] [[|tm]|] acc au ck trc].

(** * Properties *)

(** ** Strings *)

Lemma truthy_nullable (sid : option string) :
  truthy (of_nullable sid) = false <-> sid = None \/ sid = Some "".
Proof.
  destruct sid as [[|c s]|]; simpl; split; intros H; auto;
    try discriminate; destruct H; discriminate.
Qed.

Lemma trimStart_whitespace_only s :
  whitespace_only s = true -> trimStart s = "".
Proof.
  induction s as [|c s IH]; simpl; [reflexivity|].
  destruct (isWhiteSpace c); simpl; [exact IH | discriminate].
Qed.

Lemma trimEnd_empty s :
  trimEnd s = "" -> whitespace_only s = true.
Proof.
  induction s as [|c s IH]; simpl; [reflexivity|].
  destruct (isWhiteSpace c); simpl; [|discriminate].
  destruct (trimEnd s); simpl; [auto | discriminate].
Qed.

Lemma whitespace_only_trimStart s :
  whitespace_only (trimStart s) = true -> whitespace_only s = true.
Proof.
  induction s as [|c s IH]; simpl; [reflexivity|].
  destruct (isWhiteSpace c) eqn:E; simpl; [exact IH|].
  rewrite E. discriminate.
Qed.

(** [!text.trim()] holds exactly for the utterances of white space. *)
Lemma trim_empty_iff s :
  truthy (JsString (trim s)) = false <-> whitespace_only s = true.
Proof.
  unfold trim; simpl. split.
  - intros H. apply whitespace_only_trimStart, trimEnd_empty.
    destruct (trimEnd (trimStart s)); [reflexivity | discriminate].
  - intros H. rewrite (trimStart_whitespace_only _ H). reflexivity.
Qed.

(** ** Traces *)

Lemma fetches_app tr1 tr2 : fetches (tr1 ++ tr2) = fetches tr1 ++ fetches tr2.
Proof.
  induction tr1 as [|e tr1 IH]; simpl; [reflexivity|].
  destruct e; simpl; rewrite IH; reflexivity.
Qed.

Lemma alerts_app tr1 tr2 : alerts (tr1 ++ tr2) = alerts tr1 ++ alerts tr2.
Proof.
  induction tr1 as [|e tr1 IH]; simpl; [reflexivity|].
  destruct e; simpl; rewrite IH; reflexivity.
Qed.

(** ** Continuations in flight *)

Section Preservation.
Variable P : Home -> Prop.

Hypothesis startCall_conts : forall st, async_ok P (startCall st).
Hypothesis handleUserSpeech_conts :
  forall sid text st, async_ok P (handleUserSpeech sid text st).
Hypothesis endCall_conts : forall sid st, async_ok P (endCall sid st).

Lemma silenceTimeout_conts sid text st :
  async_ok P (silenceTimeout sid text st).
Proof.
  unfold silenceTimeout. destruct (recognitionRef st); [|exact I].
  apply handleUserSpeech_conts.
Qed.

Lemma launch_conts a ps :
  async_ok P a ->
  Forall (fun p => cont_ok P p.2) ps ->
  conts_ok P (launch a ps).
Proof.
  intros Ha Hps. destruct a as [st|st req k]; unfold conts_ok; simpl.
  - exact Hps.
  - apply Forall_app. split; [exact Hps|].
    constructor; [exact Ha | constructor].
Qed.

Lemma step_conts e w : conts_ok P w -> conts_ok P (step e w).
Proof.
  intros Hw. destruct e; cbn [step]; try exact Hw.
  - destruct (control _); try exact Hw. now apply launch_conts.
  - destruct (control _); try exact Hw. now apply launch_conts.
  - apply launch_conts; [apply silenceTimeout_conts | exact Hw].
  - destruct (audios (home w) !! h) as [a|]; [|exact Hw].
    destruct (playing a); exact Hw.
  - destruct (audios (home w) !! h); exact Hw.
  - destruct (pending w !! i) as [[req k]|] eqn:Hi; [|exact Hw].
    apply launch_conts.
    + unfold conts_ok in Hw. rewrite Forall_lookup in Hw.
      apply (Hw _ _ Hi).
    + apply Forall_delete, Hw.
Qed.

Lemma reachable_conts w : reachable w -> conts_ok P w.
Proof.
  induction 1 as [now|e w _ IH].
  - constructor.
  - apply step_conts, IH.
Qed.

(** A settled request moves the component along a continuation that
    keeps [P]. *)
Lemma settled_keeps i o w :
  conts_ok P w -> P (home w) -> P (home (step (Settled i o) w)).
Proof.
  intros Hw HP. cbn [step].
  destruct (pending w !! i) as [[req k]|] eqn:Hi; [|exact HP].
  unfold conts_ok in Hw. rewrite Forall_lookup in Hw.
  destruct (Hw _ _ Hi o (home w)) as [Hk _]. simpl in Hk.
  specialize (Hk HP). destruct (k o (home w)); exact Hk.
Qed.
End Preservation.

(** ** What [playAudio] leaves behind *)

Lemma length_paused_store st : length (paused_store st) = length (audios st).
Proof. unfold paused_store. destruct (audioRef st); [apply length_alter | reflexivity]. Qed.

Lemma playAudio_unfold url textDisplay st :
  playAudio url textDisplay st =
  {| callStatus := SPEAKING;
     transcript := textDisplay;
     logs := logs st ++ [{| sender := "Aria"; text := textDisplay |}];
     sessionId := sessionId st;
     audioRef := Some (length (audios st));
     recognitionRef := recognitionRef st;
     silenceTimerRef := silenceTimerRef st;
     accumulatedTextRef := accumulatedTextRef st;
     audios := paused_store st ++
               [{| src := url +:+ "?t=" +:+ pretty (clock st); playing := true |}];
     clock := clock st;
     trace := trace st ++ pause_effects st ++ [AudioPlay (length (audios st))] |}.
Proof.
  destruct st as [cs tr lg sid [h|] rr tm acc au ck trc];
    unfold playAudio, paused_store, pause_effects; reveal;
    rewrite ?length_alter; f_equal.
  - rewrite <- (Nat.add_0_r (length au)) at 1.
    rewrite <- (length_alter (set_playing false) au h) at 1.
    rewrite alter_app_r. reflexivity.
  - rewrite <- app_assoc. reflexivity.
  - rewrite <- (Nat.add_0_r (length au)) at 1.
    rewrite alter_app_r. reflexivity.
Qed.

(** ** The guard of [handleUserSpeech] *)

Lemma handleUserSpeech_guard sid text :
  whitespace_only text = false ->
  truthy (of_nullable sid) = true ->
  negb (truthy (JsString (trim text))) || negb (truthy (of_nullable sid)) = false.
Proof.
  intros Hws Hsid. rewrite Hsid.
  destruct (truthy (JsString (trim text))) eqn:E; [reflexivity|].
  apply trim_empty_iff in E. congruence.
Qed.

(** C8. A chat turn whose utterance is white space only, or that has no
    session id (the cell is null or empty), does nothing: the handler
    finishes at once in the state
    it was called in, so no entry is logged, the status is as before, no
    request is recorded and none is left pending. *)
Theorem handleUserSpeech_noop (sid : option string) (text : string) (st : Home) :
  whitespace_only text = true \/ truthy (of_nullable sid) = false ->
  handleUserSpeech sid text st = Done st /\
  forall ps, launch (handleUserSpeech sid text st) ps = {| home := st; pending := ps |}.
Proof.
  intros H.
  assert (E : handleUserSpeech sid text st = Done st).
  { unfold handleUserSpeech. destruct H as [H|H].
    - apply trim_empty_iff in H. rewrite H. reflexivity.
    - rewrite H. rewrite orb_true_r. reflexivity. }
  split; [exact E|]. intros ps. rewrite E. reflexivity.
Qed.

Lemma handleUserSpeech_noop_witness :
  handleUserSpeech (Some "S1") "  " (initial 0) = Done (initial 0) /\
  handleUserSpeech None "What is the pool policy?" (initial 0) = Done (initial 0).
Proof.
  split.
  - apply (handleUserSpeech_noop (Some "S1") "  " (initial 0)).
    left. reflexivity.
  - apply (handleUserSpeech_noop None "What is the pool policy?" (initial 0)).
    right. reflexivity.
Defined.

(** C9. A recognition start event never takes the status from SAVING to
    LISTENING: in SAVING the status stays SAVING, in every other status
    it becomes LISTENING; the event touches nothing but the status. *)
Theorem onstart_keeps_saving (w : World) :
  let w' := step RecognitionStarted w in
  (callStatus (home w) = SAVING -> callStatus (home w') = SAVING) /\
  (callStatus (home w) <> SAVING -> callStatus (home w') = LISTENING) /\
  home w' = setCallStatus (callStatus (home w')) (home w) /\
  pending w' = pending w.
Proof.
  cbn [step home pending]. unfold onstart, updateCallStatus.
  repeat split.
  - intros H. rewrite H. reflexivity.
  - intros H. destruct (callStatus (home w)); congruence || reflexivity.
Qed.

Lemma onstart_keeps_saving_witness :
  callStatus (home (step RecognitionStarted
     {| home := setCallStatus SAVING (initial 0); pending := [] |})) = SAVING /\
  callStatus (home (step RecognitionStarted
     {| home := setCallStatus SPEAKING (initial 0); pending := [] |})) = LISTENING.
Proof.
  split.
  - apply (onstart_keeps_saving
             {| home := setCallStatus SAVING (initial 0); pending := [] |}).
    reflexivity.
  - apply (onstart_keeps_saving
             {| home := setCallStatus SPEAKING (initial 0); pending := [] |}).
    simpl. discriminate.
Defined.

(** ** Chat turns *)

(** C2. A chat turn sends one request with the text and the session id.
    When the reply carries an error the client alerts "Session Expired."
    and goes back to IDLE; it finishes there, sends nothing more, logs
    nothing and plays nothing.  A reply without an error is played from
    its audio URL and its text is shown and logged. *)
Theorem chat_error_is_terminal (sid : option string) (text : string) (st : Home) :
  whitespace_only text = false ->
  truthy (of_nullable sid) = true ->
  exists st1 k,
    handleUserSpeech sid text st =
      Await st1 (POST "/chat" [("text", JsString text);
                               ("session_id", of_nullable sid)]) k /\
    (forall d st2, truthy (data_error d) = true ->
       exists st3, k (Resolved (Some d)) st2 = Done st3 /\
         callStatus st3 = IDLE /\
         trace st3 = trace st2 ++ [Alert "Session Expired."] /\
         fetches (trace st3) = fetches (trace st2) /\
         logs st3 = logs st2 /\ audios st3 = audios st2) /\
    (forall d st2, truthy (data_error d) = false ->
       exists st3 h, k (Resolved (Some d)) st2 = Done st3 /\
         callStatus st3 = SPEAKING /\
         transcript st3 = data_text d /\
         logs st3 = logs st2 ++ [{| sender := "Aria"; text := data_text d |}] /\
         audioRef st3 = Some h /\
         audios st3 !! h =
           Some {| src := data_audio_url d +:+ "?t=" +:+ pretty (clock st2);
                   playing := true |} /\
         alerts (trace st3) = alerts (trace st2)).
Proof.
  intros Hws Hsid. unfold handleUserSpeech.
  rewrite (handleUserSpeech_guard _ _ Hws Hsid).
  eexists _, _. split; [reflexivity|]. split.
  - intros d st2 Hd. rewrite Hd. eexists. split; [reflexivity|].
    reveal. rewrite fetches_app, app_nil_r. repeat split.
  - intros d st2 Hd. rewrite Hd.
    exists (playAudio (data_audio_url d) (data_text d) st2), (length (audios st2)).
    split; [reflexivity|]. rewrite playAudio_unfold. cbn -[pretty].
    repeat split.
    + rewrite lookup_app_r by (rewrite length_paused_store; lia).
      rewrite length_paused_store, Nat.sub_diag. reflexivity.
    + rewrite !alerts_app. unfold pause_effects.
      destruct (audioRef st2); simpl; rewrite app_nil_r; reflexivity.
Qed.

Lemma chat_error_is_terminal_witness :
  exists st1 k,
    handleUserSpeech (Some "S1") "Is a room free on Dec 24?" (initial 0) =
      Await st1 (POST "/chat" [("text", JsString "Is a room free on Dec 24?");
                               ("session_id", JsString "S1")]) k.
Proof.
  destruct (chat_error_is_terminal (Some "S1") "Is a room free on Dec 24?"
              (initial 0) eq_refl eq_refl) as (st1 & k & H & _).
  exists st1, k. exact H.
Defined.

(** C5. What a failed chat turn shows follows its cause.  "Session
    Expired." is alerted when the reply tells of session absence and in
    no other case; a failure of any other cause is shown as the generic
    "Connection Error." and alerts nothing; both end in IDLE.  A turn
    that did not fail alerts nothing and is played. *)
Theorem session_expired_only_for_session_absence (sid : option string)
    (text : string) (st : Home) :
  whitespace_only text = false ->
  truthy (of_nullable sid) = true ->
  exists st1 req k,
    handleUserSpeech sid text st = Await st1 req k /\
    forall o st2,
      let st3 := state_of (k o st2) in
      match cause_of o with
      | SessionAbsence =>
          alerts (trace st3) = alerts (trace st2) ++ ["Session Expired."] /\
          transcript st3 = transcript st2 /\
          callStatus st3 = IDLE
      | OtherFailure =>
          alerts (trace st3) = alerts (trace st2) /\
          transcript st3 = "Connection Error." /\
          callStatus st3 = IDLE
      | NoFailure =>
          alerts (trace st3) = alerts (trace st2) /\
          callStatus st3 = SPEAKING
      end.
Proof.
  intros Hws Hsid. unfold handleUserSpeech.
  rewrite (handleUserSpeech_guard _ _ Hws Hsid).
  eexists _, _, _. split; [reflexivity|].
  intros o st2. destruct o as [|[d|]]; cbn [cause_of].
  - reveal. repeat split.
  - destruct (truthy (data_error d)).
    + reveal. rewrite alerts_app. repeat split.
    + cbn [state_of]. rewrite playAudio_unfold. cbn [trace callStatus].
      split; [|reflexivity]. rewrite !alerts_app. unfold pause_effects.
      destruct (audioRef st2); simpl; rewrite app_nil_r; reflexivity.
  - reveal. repeat split.
Qed.

Lemma session_expired_only_for_session_absence_witness :
  exists st1 req k,
    handleUserSpeech (Some "S1") "hello" (initial 0) = Await st1 req k /\
    alerts (trace (state_of (k Rejected st1))) = alerts (trace st1) /\
    alerts (trace (state_of (k (Resolved (Some
      {| data_session_id := None; data_text := ""; data_audio_url := "";
         data_error := JsString "Session not found" |})) st1))) =
      alerts (trace st1) ++ ["Session Expired."].
Proof.
  destruct (session_expired_only_for_session_absence (Some "S1") "hello"
              (initial 0) eq_refl eq_refl) as (st1 & req & k & H & Hk).
  exists st1, req, k. split; [exact H|]. split.
  - exact (proj1 (Hk Rejected st1)).
  - exact (proj1 (Hk (Resolved (Some
      {| data_session_id := None; data_text := ""; data_audio_url := "";
         data_error := JsString "Session not found" |})) st1)).
Defined.

(** ** Greeting *)

(** C6. [startCall] sends a GET to /greet, which has no body.  From the
    reply it stores [session_id] in the session cell, shows and logs the
    reply text, and plays the reply from its URL: a new audio element
    whose source is [audio_url] (with a time stamp appended) becomes the
    current one and is started. *)
Theorem greet_stores_session_and_plays (st : Home) :
  exists st1 k,
    startCall st = Await st1 (GET "/greet") k /\
    fetches (trace st1) = fetches (trace st) ++ [GET "/greet"] /\
    forall d st2,
      exists st3 h, k (Resolved (Some d)) st2 = Done st3 /\
        sessionId st3 = data_session_id d /\
        transcript st3 = data_text d /\
        logs st3 = logs st2 ++ [{| sender := "Aria"; text := data_text d |}] /\
        audioRef st3 = Some h /\
        audios st3 !! h =
          Some {| src := data_audio_url d +:+ "?t=" +:+ pretty (clock st2);
                  playing := true |} /\
        last (trace st3) = Some (AudioPlay h).
Proof.
  unfold startCall. eexists _, _. split; [reflexivity|]. split.
  - reveal. rewrite fetches_app. reflexivity.
  - intros d st2.
    exists (playAudio (data_audio_url d) (data_text d)
              (setSessionId (data_session_id d) st2)), (length (audios st2)).
    split; [reflexivity|]. rewrite playAudio_unfold. cbn -[pretty].
    repeat split.
    + unfold paused_store. cbn -[pretty alter].
      change (match audioRef st2 with
              | Some h => alter (set_playing false) h (audios st2)
              | None => audios st2
              end) with (paused_store st2).
      rewrite lookup_app_r by (rewrite length_paused_store; lia).
      rewrite length_paused_store, Nat.sub_diag. reflexivity.
    + rewrite app_assoc. apply last_snoc.
Qed.

(** ** Ending a call *)

Lemma endCall_no_session (sid : option string) (st : Home) :
  truthy (of_nullable sid) = false ->
  endCall sid st =
  Done {| callStatus := IDLE;
          transcript := "Call Ended. Log saved.";
          logs := logs st;
          sessionId := sessionId st;
          audioRef := audioRef st;
          recognitionRef := recognitionRef st;
          silenceTimerRef := silenceTimerRef st;
          accumulatedTextRef := accumulatedTextRef st;
          audios := paused_store st;
          clock := clock st;
          trace := trace st ++ hang_up_effects st |}.
Proof.
  intros Hsid. unfold endCall. rewrite Hsid.
  destruct st as [cs tr lg s0 [h|] [r|] [[|t]|] acc au ck trc];
    unfold paused_store, hang_up_effects, pause_effects; reveal;
    rewrite <- ?app_assoc, ?app_nil_r; reflexivity.
Qed.

Lemma endCall_session (sid : option string) (st : Home) :
  truthy (of_nullable sid) = true ->
  let req := POST "/end_call" [("session_id", of_nullable sid)] in
  exists k,
    endCall sid st =
    Await {| callStatus := SAVING;
             transcript := "Saving call summary to CRM...";
             logs := logs st;
             sessionId := sessionId st;
             audioRef := audioRef st;
             recognitionRef := recognitionRef st;
             silenceTimerRef := silenceTimerRef st;
             accumulatedTextRef := accumulatedTextRef st;
             audios := paused_store st;
             clock := clock st;
             trace := trace st ++ hang_up_effects st ++ [Fetch req] |} req k /\
    forall o st2,
      k o st2 =
      Done {| callStatus := IDLE;
              transcript := "Call Ended. Log saved.";
              logs := logs st2;
              sessionId := None;
              audioRef := audioRef st2;
              recognitionRef := recognitionRef st2;
              silenceTimerRef := silenceTimerRef st2;
              accumulatedTextRef := accumulatedTextRef st2;
              audios := audios st2;
              clock := clock st2;
              trace := trace st2 ++
                       match o with
                       | Rejected => [ConsoleError "Failed to save log"]
                       | Resolved _ => []
                       end |}.
Proof.
  intros Hsid req. unfold endCall. rewrite Hsid. eexists. split.
  - destruct st as [cs tr lg s0 [h|] [r|] [[|t]|] acc au ck trc];
      unfold paused_store, hang_up_effects, pause_effects; reveal;
      rewrite <- ?app_assoc, ?app_nil_r; reflexivity.
  - intros [|b] st2; reveal; rewrite ?app_nil_r; reflexivity.
Qed.

Lemma fetches_hang_up st : fetches (hang_up_effects st) = [].
Proof.
  unfold hang_up_effects, pause_effects.
  destruct (audioRef st), (recognitionRef st), (silenceTimerRef st) as [[|t]|];
    reflexivity.
Qed.

Lemma alerts_hang_up st : alerts (hang_up_effects st) = [].
Proof.
  unfold hang_up_effects, pause_effects.
  destruct (audioRef st), (recognitionRef st), (silenceTimerRef st) as [[|t]|];
    reflexivity.
Qed.

(** C1, as the code has it.  When the end_call request fails, the only
    trace of the failure is a console line: the client clears the
    session cell, returns to IDLE and displays "Call Ended. Log saved.",
    exactly the screen a request that succeeded leaves, with no alert. *)
Theorem endCall_failure_says_saved (sid : option string) (st : Home) :
  truthy (of_nullable sid) = true ->
  exists st1 req k,
    endCall sid st = Await st1 req k /\
    forall st2,
      exists st3, k Rejected st2 = Done st3 /\
        transcript st3 = "Call Ended. Log saved." /\
        callStatus st3 = IDLE /\
        sessionId st3 = None /\
        trace st3 = trace st2 ++ [ConsoleError "Failed to save log"] /\
        forall body,
          exists st3', k (Resolved body) st2 = Done st3' /\
            callStatus st3' = callStatus st3 /\
            transcript st3' = transcript st3 /\
            logs st3' = logs st3 /\
            alerts (trace st3') = alerts (trace st3).
Proof.
  intros Hsid. destruct (endCall_session sid st Hsid) as (k & Hk & Hres).
  eexists _, _, k. split; [exact Hk|]. intros st2.
  eexists. split; [apply Hres|]. cbn. repeat split.
  intros body. eexists. split; [apply Hres|]. cbn.
  rewrite !alerts_app. repeat split.
Qed.

Lemma endCall_failure_says_saved_witness :
  exists st1 req k,
    endCall (Some "S1") (setSessionId (Some "S1") (initial 0)) = Await st1 req k /\
    exists st3, k Rejected st1 = Done st3 /\
      transcript st3 = "Call Ended. Log saved.".
Proof.
  destruct (endCall_failure_says_saved (Some "S1")
              (setSessionId (Some "S1") (initial 0)) eq_refl)
    as (st1 & req & k & H & Hk).
  exists st1, req, k. split; [exact H|].
  destruct (Hk st1) as (st3 & H3 & Ht & _).
  exists st3. split; [exact H3 | exact Ht].
Defined.

Lemma reported_app tr1 tr2 : reported (tr1 ++ tr2) = reported tr1 ++ reported tr2.
Proof.
  induction tr1 as [|e tr1 IH]; simpl; [reflexivity|].
  destruct e; simpl; rewrite IH; reflexivity.
Qed.

Lemma reported_hang_up st : reported (hang_up_effects st) = [].
Proof.
  unfold hang_up_effects, pause_effects.
  destruct (audioRef st), (recognitionRef st), (silenceTimerRef st) as [[|t]|];
    reflexivity.
Qed.

(** C3, amended.  Called without a session id, [endCall] sends no
    request and produces no outcome of its own: all it does outside is
    to hang up (pause the audio, stop recognition, clear the timer), it
    alerts nothing and writes nothing to the console, and it finishes at
    once in IDLE showing "Call Ended. Log saved.", with the session cell
    and the log as they were.  Called with one, it sends a single
    end_call request for that id, and whatever the outcome its
    continuation clears the session cell and sends nothing, so that an
    [endCall] of the component as it is then sends no request either. *)
Theorem endCall_requests (sid : option string) (st : Home) :
  (truthy (of_nullable sid) = false ->
     exists st', endCall sid st = Done st' /\
       trace st' = trace st ++ hang_up_effects st /\
       reported (trace st') = reported (trace st) /\
       fetches (trace st') = fetches (trace st) /\
       callStatus st' = IDLE /\
       transcript st' = "Call Ended. Log saved." /\
       sessionId st' = sessionId st /\
       logs st' = logs st) /\
  (truthy (of_nullable sid) = true ->
     exists st1 k,
       endCall sid st =
         Await st1 (POST "/end_call" [("session_id", of_nullable sid)]) k /\
       fetches (trace st1) =
         fetches (trace st) ++ [POST "/end_call" [("session_id", of_nullable sid)]] /\
       forall o st2,
         exists st3, k o st2 = Done st3 /\
           sessionId st3 = None /\
           fetches (trace st3) = fetches (trace st2) /\
           exists st4, endCall (sessionId st3) st3 = Done st4 /\
             fetches (trace st4) = fetches (trace st3)).
Proof.
  split; intros Hsid.
  - rewrite (endCall_no_session _ _ Hsid). eexists. split; [reflexivity|].
    cbn [trace callStatus transcript sessionId logs].
    rewrite fetches_app, fetches_hang_up, reported_app, reported_hang_up,
      !app_nil_r. repeat split.
  - destruct (endCall_session sid st Hsid) as (k & Hk & Hres).
    eexists _, k. split; [exact Hk|]. split.
    + cbn. rewrite !fetches_app, fetches_hang_up. reflexivity.
    + intros o st2. eexists. split; [apply Hres|].
      rewrite endCall_no_session by reflexivity.
      split; [reflexivity|]. split.
      * cbn [trace]. rewrite fetches_app.
        destruct o; cbn; rewrite app_nil_r; reflexivity.
      * eexists. split; [reflexivity|]. cbn [trace].
        rewrite (fetches_app (_ ++ _)), fetches_hang_up, app_nil_r. reflexivity.
Qed.

Lemma endCall_requests_witness :
  (exists st', endCall None (initial 0) = Done st' /\
     trace st' = trace (initial 0) ++ hang_up_effects (initial 0) /\
     reported (trace st') = reported (trace (initial 0)) /\
     fetches (trace st') = fetches (trace (initial 0)) /\
     callStatus st' = IDLE /\
     transcript st' = "Call Ended. Log saved." /\
     sessionId st' = sessionId (initial 0) /\
     logs st' = logs (initial 0)) /\
  (exists st1 k,
     endCall (Some "S1") (setSessionId (Some "S1") (initial 0)) =
       Await st1 (POST "/end_call" [("session_id", JsString "S1")]) k).
Proof.
  split.
  - apply (endCall_requests None (initial 0)). reflexivity.
  - destruct (endCall_requests (Some "S1") (setSessionId (Some "S1") (initial 0)))
      as [_ H].
    destruct (H eq_refl) as (st1 & k & Hk & _).
    exists st1, k. exact Hk.
Defined.

(** C3 as stated fails: ending a call that has no session id reports
    nothing.  The client ends in IDLE showing "Call Ended. Log saved."
    and has alerted, logged and requested nothing. *)
Lemma endCall_without_session_reports_saved :
  exists st',
    endCall None (setCallStatus LISTENING (initial 0)) = Done st' /\
    callStatus st' = IDLE /\
    transcript st' = "Call Ended. Log saved." /\
    trace st' = [].
Proof. eexists. split; [reflexivity|]. repeat split. Qed.

(** The session id is cleared only when the end_call request settles.
    If the reply to a chat turn arrives while the request is in flight,
    the component is SPEAKING again and offers "End Call" again; pressing
    it sends a second end_call request for the same session id. *)
Remark end_call_sent_twice_for_one_session :
  let greeting := {| data_session_id := Some "S1"; data_text := "Welcome";
                     data_audio_url := "/audio/greeting.mp3";
                     data_error := JsUndefined |} in
  let reply := {| data_session_id := None; data_text := "Yes.";
                  data_audio_url := "/audio/reply.mp3";
                  data_error := JsUndefined |} in
  let w := run [ClickStart; Settled 0 (Resolved (Some greeting));
                EffectRuns true; AudioEnded 0; RecognitionStarted;
                RecognitionResult 0 ["Is a room free?"] 1;
                SilenceElapsed (Some "S1") "Is a room free?";
                ClickEnd;
                Settled 0 (Resolved (Some reply));
                ClickEnd] (mounted 0) in
  reachable w /\
  fetches (trace (home w)) =
    [GET "/greet";
     POST "/chat" [("text", JsString "Is a room free?");
                   ("session_id", JsString "S1")];
     POST "/end_call" [("session_id", JsString "S1")];
     POST "/end_call" [("session_id", JsString "S1")]].
Proof.
  split; [|reflexivity].
  unfold run. cbn [foldl]. repeat apply reach_step. apply reach_mounted.
Qed.

(** C4, amended.  Called with a session id, [endCall] stops at the
    end_call request: it has set SAVING and "Saving call summary to
    CRM...", the control on screen is the disabled saving one, and the
    request is the last thing it did.  IDLE and "Call Ended. Log saved."
    are set by its continuation alone, which runs on the outcome of the
    request. *)
Theorem endCall_waits_in_saving (sid : option string) (st : Home) :
  truthy (of_nullable sid) = true ->
  exists st1 k,
    endCall sid st =
      Await st1 (POST "/end_call" [("session_id", of_nullable sid)]) k /\
    callStatus st1 = SAVING /\
    control (callStatus st1) = SavingToCRM /\
    transcript st1 = "Saving call summary to CRM..." /\
    last (trace st1) =
      Some (Fetch (POST "/end_call" [("session_id", of_nullable sid)])) /\
    forall o st2,
      exists st3, k o st2 = Done st3 /\
        callStatus st3 = IDLE /\
        transcript st3 = "Call Ended. Log saved.".
Proof.
  intros Hsid. destruct (endCall_session sid st Hsid) as (k & Hk & Hres).
  eexists _, k. split; [exact Hk|]. cbn. repeat split.
  - rewrite !app_assoc. apply last_snoc.
  - intros o st2. eexists. split; [apply Hres|]. split; reflexivity.
Qed.

Lemma endCall_waits_in_saving_witness :
  exists st1 k,
    endCall (Some "S1") (setSessionId (Some "S1") (initial 0)) =
      Await st1 (POST "/end_call" [("session_id", JsString "S1")]) k /\
    callStatus st1 = SAVING.
Proof.
  destruct (endCall_waits_in_saving (Some "S1")
              (setSessionId (Some "S1") (initial 0)) eq_refl)
    as (st1 & k & Hk & Hs & _).
  exists st1, k. split; [exact Hk | exact Hs].
Defined.

(** C4 as stated fails: pressing "End Call" while the greeting is still
    being fetched, when no session id is held yet, displays "Call Ended.
    Log saved." at once; no end_call request was ever sent, the only
    request made and still pending being the greeting. *)
Lemma saved_shown_without_any_write :
  let w := step ClickEnd (step ClickStart (mounted 0)) in
  transcript (home w) = "Call Ended. Log saved." /\
  callStatus (home w) = IDLE /\
  fetches (trace (home w)) = [GET "/greet"] /\
  map fst (pending w) = [GET "/greet"].
Proof. cbn. repeat split. Qed.

(** ** The on-screen log *)

Lemma home_launch a ps : home (launch a ps) = state_of a.
Proof. destruct a; reflexivity. Qed.

(** Where [handleUserSpeech] yields: where it was called, or at its
    request with the guest's line logged. *)
Lemma handleUserSpeech_yields sid utterance st :
  state_of (handleUserSpeech sid utterance st) = st \/
  state_of (handleUserSpeech sid utterance st) =
    emit (Fetch (POST "/chat" [("text", JsString utterance);
                               ("session_id", of_nullable sid)]))
      (addLog "Guest" utterance (setCallStatus PROCESSING st)).
Proof.
  unfold handleUserSpeech. destruct (_ || _); [left | right]; reflexivity.
Qed.

Lemma endCall_logs sid st : logs (state_of (endCall sid st)) = logs st.
Proof.
  destruct (truthy (of_nullable sid)) eqn:Hsid.
  - destruct (endCall_session sid st Hsid) as (k & -> & _). reflexivity.
  - rewrite (endCall_no_session sid st Hsid). reflexivity.
Qed.

Section LogGrows.
Variable l0 : list LogEntry.

Lemma startCall_extends st : async_ok (log_extends l0) (startCall st).
Proof.
  unfold startCall. cbn [async_ok]. intros o st2. unfold log_extends.
  destruct o as [|[d|]]; (split; [|exact I]); cbn [state_of]; intros H.
  - exact H.
  - rewrite playAudio_unfold. cbn. apply prefix_app_r, H.
  - exact H.
Qed.

Lemma handleUserSpeech_extends sid text st :
  async_ok (log_extends l0) (handleUserSpeech sid text st).
Proof.
  unfold handleUserSpeech. destruct (_ || _); [exact I|].
  cbn [async_ok]. intros o st2. unfold log_extends.
  destruct o as [|[d|]]; [| destruct (truthy (data_error d)) |];
    (split; [|exact I]); cbn [state_of]; intros H; try exact H.
  rewrite playAudio_unfold. cbn. apply prefix_app_r, H.
Qed.

Lemma endCall_extends sid st : async_ok (log_extends l0) (endCall sid st).
Proof.
  destruct (truthy (of_nullable sid)) eqn:Hsid.
  - destruct (endCall_session sid st Hsid) as (k & -> & Hk).
    cbn [async_ok]. intros o st2. rewrite Hk. split; [|exact I].
    intros H. exact H.
  - rewrite (endCall_no_session sid st Hsid). exact I.
Qed.

Lemma step_extends e w :
  conts_ok (log_extends l0) w ->
  callStatus (home w) <> IDLE ->
  (log_extends l0) (home w) -> (log_extends l0) (home (step e w)).
Proof.
  intros Hw Hactive H.
  destruct e as [supported| | | |i rs t|sid utterance|h|h|i o|now];
    try exact H; try (apply settled_keeps; assumption); cbn [step].
  - unfold useEffect. destruct supported; exact H.
  - destruct (callStatus (home w)); try exact H. congruence.
  - destruct (control _); try exact H.
    rewrite home_launch. unfold log_extends. rewrite endCall_logs. exact H.
  - destruct w as [[cs tr lg s0 ar rr [[|t0]|] acc au ck trc] ps]; exact H.
  - rewrite home_launch. unfold silenceTimeout, log_extends.
    destruct (recognitionRef (home w)); [|exact H].
    destruct (handleUserSpeech_yields sid utterance
                (set_accumulatedTextRef utterance
                   (emit RecognitionStop (home w))))
      as [-> | ->]; [exact H | apply prefix_app_r, H].
  - destruct (audios (home w) !! h) as [a|]; [|exact H].
    destruct (playing a); [|exact H].
    destruct w as [[cs tr lg s0 ar [r|] tm acc au ck trc] ps]; exact H.
  - destruct (audios (home w) !! h); exact H.
Qed.
End LogGrows.

(** C7. The on-screen log only grows at its end.  [addLog] appends one
    entry; while a call is on (the status is not IDLE) no event of the
    component removes or moves an entry, the log before the event being
    a prefix of the log after it; and in a chat turn the guest's line is
    logged before the request is sent and the reply's line when it is
    back, so the first precedes the second whatever was logged between. *)
Theorem log_append_only :
  (forall s t st,
     logs (addLog s t st) = logs st ++ [{| sender := s; text := t |}]) /\
  (forall w e,
     reachable w -> callStatus (home w) <> IDLE ->
     logs (home w) `prefix_of` logs (home (step e w))) /\
  (forall sid utterance st,
     whitespace_only utterance = false ->
     truthy (of_nullable sid) = true ->
     exists st1 req k,
       handleUserSpeech sid utterance st = Await st1 req k /\
       logs st1 = logs st ++ [{| sender := "Guest"; text := utterance |}] /\
       forall d st2,
         truthy (data_error d) = false ->
         logs st1 `prefix_of` logs st2 ->
         exists between,
           logs (state_of (k (Resolved (Some d)) st2)) =
             logs st ++ [{| sender := "Guest"; text := utterance |}] ++
             between ++ [{| sender := "Aria"; text := data_text d |}]).
Proof.
  split; [reflexivity|]. split.
  - intros w e Hw Hactive.
    apply (step_extends (logs (home w))); [|exact Hactive|apply (reflexivity (R := prefix))].
    apply reachable_conts; [| | |exact Hw].
    + apply startCall_extends.
    + apply handleUserSpeech_extends.
    + apply endCall_extends.
  - intros sid utterance st Hws Hsid. unfold handleUserSpeech.
    rewrite (handleUserSpeech_guard _ _ Hws Hsid).
    eexists _, _, _. split; [reflexivity|]. split; [reflexivity|].
    intros d st2 Hd [between Hst2]. rewrite Hd. cbn [state_of].
    rewrite playAudio_unfold. cbn [logs]. exists between.
    rewrite Hst2. cbn [logs emit addLog setLogs setCallStatus].
    rewrite <- !app_assoc. reflexivity.
Qed.

Lemma log_append_only_witness :
  let w := step ClickStart (mounted 0) in
  let d := {| data_session_id := Some "S1"; data_text := "Welcome";
              data_audio_url := "/audio/greeting.mp3"; data_error := JsUndefined |} in
  logs (home w) `prefix_of` logs (home (step (Settled 0 (Resolved (Some d))) w)) /\
  exists st1 req k,
    handleUserSpeech (Some "S1") "hello" (initial 0) = Await st1 req k /\
    logs st1 = [{| sender := "Guest"; text := "hello" |}].
Proof.
  destruct log_append_only as (_ & Hstep & Hturn). split.
  - apply Hstep.
    + apply reach_step, reach_mounted.
    + discriminate.
  - destruct (Hturn (Some "S1") "hello" (initial 0) eq_refl eq_refl)
      as (st1 & req & k & Hk & Hlogs & _).
    exists st1, req, k. split; [exact Hk | exact Hlogs].
Defined.

(** ** Audio elements *)

Lemma paused_store_silent st :
  only_current_plays st -> Forall (fun a => playing a = false) (paused_store st).
Proof.
  intros H. apply Forall_lookup. intros i a Hi.
  destruct (playing a) eqn:Ha; [|reflexivity]. exfalso.
  unfold paused_store in Hi. destruct (audioRef st) as [h|] eqn:Href.
  - rewrite list_lookup_alter in Hi. destruct (decide (h = i)) as [->|Hne].
    + destruct (audios st !! i) as [b|]; [|discriminate].
      injection Hi as <-. discriminate.
    + pose proof (H i a Hi Ha) as Hcur. congruence.
  - pose proof (H i a Hi Ha) as Hcur. congruence.
Qed.

Lemma silent_only_current st :
  Forall (fun a => playing a = false) (audios st) -> only_current_plays st.
Proof.
  intros H h a Hh Ha. rewrite Forall_lookup in H.
  rewrite (H h a Hh) in Ha. discriminate.
Qed.

Lemma silent_count l :
  Forall (fun a => playing a = false) l -> playing_count l = 0%nat.
Proof.
  unfold playing_count. induction 1 as [|a l Ha _ IH]; [reflexivity|].
  rewrite filter_cons_False by congruence. exact IH.
Qed.

Lemma only_current_count st :
  only_current_plays st -> (playing_count (audios st) <= 1)%nat.
Proof.
  unfold only_current_plays. generalize (audioRef st) as cur.
  induction (audios st) as [|a l IH]; intros cur H; [unfold playing_count; simpl; lia|].
  unfold playing_count in *. destruct (playing a) eqn:Ha.
  - rewrite filter_cons_True by exact Ha.
    assert (Hl : Forall (fun b => playing b = false) l).
    { apply Forall_lookup. intros i b Hi.
      destruct (playing b) eqn:Hb; [|reflexivity].
      pose proof (H 0%nat a eq_refl Ha) as H0.
      pose proof (H (S i) b Hi Hb) as HS. congruence. }
    pose proof (silent_count l Hl) as Hc. unfold playing_count in Hc.
    simpl. rewrite Hc. lia.
  - rewrite filter_cons_False by congruence.
    apply (IH (match cur with Some (S n) => Some n | _ => None end)).
    intros h b Hh Hb. pose proof (H (S h) b Hh Hb) as HS.
    rewrite HS. reflexivity.
Qed.

Lemma playAudio_only_current url textDisplay st :
  only_current_plays st -> only_current_plays (playAudio url textDisplay st).
Proof.
  intros H. pose proof (paused_store_silent st H) as Hs.
  rewrite playAudio_unfold. intros h a Hh Ha. cbn [audios audioRef] in *.
  apply lookup_app_Some in Hh as [Hh | [Hge Hh]].
  - rewrite Forall_lookup in Hs. rewrite (Hs h a Hh) in Ha. discriminate.
  - rewrite length_paused_store in Hge, Hh.
    apply list_lookup_singleton_Some in Hh as [Hz _].
    f_equal. lia.
Qed.

Lemma playAudio_count url textDisplay st :
  only_current_plays st ->
  playing_count (audios (playAudio url textDisplay st)) = 1%nat.
Proof.
  intros H. pose proof (silent_count _ (paused_store_silent st H)) as Hc.
  rewrite playAudio_unfold. cbn [audios]. unfold playing_count in *.
  rewrite filter_app, length_app, Hc. reflexivity.
Qed.

Lemma stop_playing_only_current h st :
  only_current_plays st -> only_current_plays (stop_playing h st).
Proof.
  intros H i a Hi Ha. unfold stop_playing in *. cbn [audios audioRef set_audios] in *.
  rewrite list_lookup_alter in Hi. destruct (decide (h = i)) as [->|Hne].
  - destruct (audios st !! i) as [b|]; [|discriminate].
    injection Hi as <-. discriminate.
  - exact (H i a Hi Ha).
Qed.

Lemma endCall_only_current sid st :
  only_current_plays st -> only_current_plays (state_of (endCall sid st)).
Proof.
  intros H. apply silent_only_current.
  destruct (truthy (of_nullable sid)) eqn:Hsid.
  - destruct (endCall_session sid st Hsid) as (k & -> & _).
    apply (paused_store_silent st H).
  - rewrite (endCall_no_session sid st Hsid). apply (paused_store_silent st H).
Qed.

Lemma startCall_one_voice st : async_ok only_current_plays (startCall st).
Proof.
  unfold startCall. cbn [async_ok]. intros o st2.
  destruct o as [|[d|]]; (split; [|exact I]); cbn [state_of]; intros H;
    try exact H.
  apply playAudio_only_current. exact H.
Qed.

Lemma handleUserSpeech_one_voice sid utterance st :
  async_ok only_current_plays (handleUserSpeech sid utterance st).
Proof.
  unfold handleUserSpeech. destruct (_ || _); [exact I|].
  cbn [async_ok]. intros o st2.
  destruct o as [|[d|]]; [| destruct (truthy (data_error d)) |];
    (split; [|exact I]); cbn [state_of]; intros H; try exact H.
  apply playAudio_only_current. exact H.
Qed.

Lemma endCall_one_voice sid st : async_ok only_current_plays (endCall sid st).
Proof.
  destruct (truthy (of_nullable sid)) eqn:Hsid.
  - destruct (endCall_session sid st Hsid) as (k & -> & Hk).
    cbn [async_ok]. intros o st2. rewrite Hk. split; [|exact I].
    intros H. exact H.
  - rewrite (endCall_no_session sid st Hsid). exact I.
Qed.

Lemma step_one_voice e w :
  conts_ok only_current_plays w ->
  only_current_plays (home w) -> only_current_plays (home (step e w)).
Proof.
  intros Hw H.
  destruct e as [supported| | | |i rs t|sid utterance|h|h|i o|now];
    try exact H; try (apply settled_keeps; assumption); cbn [step].
  - destruct supported; exact H.
  - destruct (control _); exact H.
  - destruct (control _); try exact H.
    rewrite home_launch. apply endCall_only_current, H.
  - destruct w as [[cs tr lg s0 ar rr [[|t0]|] acc au ck trc] ps]; exact H.
  - rewrite home_launch. unfold silenceTimeout.
    destruct (recognitionRef (home w)); [|exact H].
    destruct (handleUserSpeech_yields sid utterance
                (set_accumulatedTextRef utterance
                   (emit RecognitionStop (home w))))
      as [-> | ->]; exact H.
  - destruct (audios (home w) !! h) as [a|]; [|exact H].
    destruct (playing a); [|exact H].
    pose proof (stop_playing_only_current h _ H) as H'.
    cbn [home]. unfold onended.
    destruct (recognitionRef _); exact H'.
  - destruct (audios (home w) !! h); [|exact H].
    exact (stop_playing_only_current h _ H).
Qed.

Lemma reachable_one_voice w : reachable w -> only_current_plays (home w).
Proof.
  intros Hw.
  assert (Hc : forall w, reachable w -> conts_ok only_current_plays w).
  { intros w'. apply reachable_conts.
    - apply startCall_one_voice.
    - apply handleUserSpeech_one_voice.
    - apply endCall_one_voice. }
  induction Hw as [now|e w Hw IH].
  - intros h a Hh. discriminate.
  - apply step_one_voice; [apply Hc, Hw | exact IH].
Qed.

(** ** Where recognition is started *)

Lemma starts_app tr1 tr2 : starts (tr1 ++ tr2) = (starts tr1 + starts tr2)%nat.
Proof.
  induction tr1 as [|e tr1 IH]; simpl; [reflexivity|].
  destruct e; simpl; rewrite IH; reflexivity.
Qed.

Lemma starts_pause st : starts (pause_effects st) = 0%nat.
Proof. unfold pause_effects. destruct (audioRef st); reflexivity. Qed.

Lemma starts_hang_up st : starts (hang_up_effects st) = 0%nat.
Proof.
  unfold hang_up_effects, pause_effects.
  destruct (audioRef st), (recognitionRef st), (silenceTimerRef st) as [[|t]|];
    reflexivity.
Qed.

Lemma playAudio_starts url textDisplay st :
  starts (trace (playAudio url textDisplay st)) = starts (trace st).
Proof.
  rewrite playAudio_unfold. cbn [trace].
  rewrite !starts_app, starts_pause. simpl. lia.
Qed.

Lemma emit_starts e st :
  e <> RecognitionStart -> starts (trace (emit e st)) = starts (trace st).
Proof.
  intros He. cbn [emit trace]. rewrite starts_app.
  destruct e; simpl; congruence || lia.
Qed.

Section Started.
Variable n : nat.

Lemma startCall_started st : async_ok (started n) (startCall st).
Proof.
  unfold startCall. cbn [async_ok]. intros o st2. unfold started.
  destruct o as [|[d|]]; (split; [|exact I]); cbn [state_of]; intros H.
  - rewrite <- H. apply (emit_starts ConsoleErrorCaught). discriminate.
  - rewrite playAudio_starts. exact H.
  - rewrite <- H. apply (emit_starts ConsoleErrorCaught). discriminate.
Qed.

Lemma handleUserSpeech_started sid utterance st :
  async_ok (started n) (handleUserSpeech sid utterance st).
Proof.
  unfold handleUserSpeech. destruct (_ || _); [exact I|].
  cbn [async_ok]. intros o st2. unfold started.
  destruct o as [|[d|]]; [| destruct (truthy (data_error d)) |];
    (split; [|exact I]); cbn [state_of]; intros H; try exact H.
  - rewrite <- H. apply (emit_starts (Alert "Session Expired.")). discriminate.
  - rewrite playAudio_starts. exact H.
Qed.

Lemma endCall_started sid st : async_ok (started n) (endCall sid st).
Proof.
  destruct (truthy (of_nullable sid)) eqn:Hsid.
  - destruct (endCall_session sid st Hsid) as (k & -> & Hk).
    cbn [async_ok]. intros o st2. rewrite Hk. split; [|exact I].
    unfold started. cbn [state_of trace]. intros H.
    rewrite starts_app, H. destruct o; simpl; lia.
  - rewrite (endCall_no_session sid st Hsid). exact I.
Qed.

Lemma endCall_yield_started sid st :
  started n st -> started n (state_of (endCall sid st)).
Proof.
  unfold started. intros H.
  destruct (truthy (of_nullable sid)) eqn:Hsid.
  - destruct (endCall_session sid st Hsid) as (k & -> & _).
    cbn [state_of trace]. rewrite !starts_app, starts_hang_up, H. simpl. lia.
  - rewrite (endCall_no_session sid st Hsid).
    cbn [state_of trace]. rewrite !starts_app, starts_hang_up, H. lia.
Qed.

(** No event but the end of a playback starts recognition. *)
Lemma step_started e w :
  conts_ok (started n) w ->
  (forall h, e <> AudioEnded h) ->
  started n (home w) -> started n (home (step e w)).
Proof.
  intros Hw He H.
  destruct e as [supported| | | |i rs t|sid utterance|h|h|i o|now];
    try exact H; try (apply settled_keeps; assumption); cbn [step].
  - destruct supported; exact H.
  - destruct (control _); try exact H.
    unfold started in *.
    cbn [launch startCall home emit trace setLogs setTranscript setCallStatus].
    rewrite starts_app, H. simpl. lia.
  - destruct (control _); try exact H.
    rewrite home_launch. apply endCall_yield_started, H.
  - unfold started in *. rewrite <- H.
    destruct w as [[cs tr lg s0 ar rr [[|t0]|] acc au ck trc] ps];
      cbn [home]; reveal; rewrite !starts_app; simpl; lia.
  - rewrite home_launch. unfold silenceTimeout, started in *.
    destruct (recognitionRef (home w)).
    + destruct (handleUserSpeech_yields sid utterance
                  (set_accumulatedTextRef utterance
                     (emit RecognitionStop (home w))))
        as [-> | ->]; cbn [trace emit set_accumulatedTextRef addLog setLogs
                           setCallStatus];
        rewrite !starts_app, H; simpl; lia.
    + cbn [state_of emit trace]. rewrite starts_app, H. simpl. lia.
  - destruct (He h eq_refl).
  - destruct (audios (home w) !! h); [|exact H].
    unfold started in *. cbn [home emit trace stop_playing set_audios].
    rewrite starts_app, H. simpl. lia.
Qed.
End Started.

(** C10, amended.  [playAudio] pauses the element [audioRef] points to,
    if there is one, before it starts the new one, and leaves exactly one
    element playing; it sets SPEAKING and does not start recognition.  In every
    state the component can reach, only the current element may be
    playing, so at most one is.  The end of a playback sets LISTENING and
    starts recognition (when there is a recognition object), and no
    other event of the component starts it. *)
Theorem one_audio_at_a_time :
  (forall url textDisplay st,
     only_current_plays st ->
     let st' := playAudio url textDisplay st in
     trace st' = trace st ++ pause_effects st ++ [AudioPlay (length (audios st))] /\
     audioRef st' = Some (length (audios st)) /\
     playing_count (audios st') = 1%nat /\
     callStatus st' = SPEAKING /\
     starts (trace st') = starts (trace st)) /\
  (forall w,
     reachable w ->
     only_current_plays (home w) /\ (playing_count (audios (home w)) <= 1)%nat) /\
  (forall st,
     callStatus (onended st) = LISTENING /\
     (recognitionRef st <> None ->
      trace (onended st) = trace st ++ [RecognitionStart])) /\
  (forall w e,
     reachable w ->
     (forall h, e <> AudioEnded h) ->
     starts (trace (home (step e w))) = starts (trace (home w))).
Proof.
  split; [|split; [|split]].
  - intros url textDisplay st H st'. subst st'.
    split; [rewrite playAudio_unfold; reflexivity|].
    split; [rewrite playAudio_unfold; reflexivity|].
    split; [apply playAudio_count, H|].
    split; [rewrite playAudio_unfold; reflexivity|].
    apply playAudio_starts.
  - intros w Hw. pose proof (reachable_one_voice w Hw) as H.
    split; [exact H | apply only_current_count, H].
  - intros st. unfold onended. cbn [recognitionRef setCallStatus set_accumulatedTextRef].
    destruct (recognitionRef st) as [r|]; split; try reflexivity.
    intros H. congruence.
  - intros w e Hw He.
    apply (step_started (starts (trace (home w)))); [|exact He|reflexivity].
    apply reachable_conts; [| | |exact Hw].
    + apply startCall_started.
    + apply handleUserSpeech_started.
    + apply endCall_started.
Qed.

Lemma one_audio_at_a_time_witness :
  let d := {| data_session_id := Some "S1"; data_text := "Welcome";
              data_audio_url := "/audio/greeting.mp3"; data_error := JsUndefined |} in
  let w := step (Settled 0 (Resolved (Some d))) (step ClickStart (mounted 0)) in
  (playing_count (audios (home w)) <= 1)%nat /\
  playing_count (audios (playAudio "/audio/reply.mp3" "Yes." (home w))) = 1%nat /\
  starts (trace (home (step ClickEnd w))) = starts (trace (home w)).
Proof.
  destruct one_audio_at_a_time as (Hplay & Hreach & _ & Hstart).
  assert (Hw : reachable
                 (step (Settled 0 (Resolved (Some
                    {| data_session_id := Some "S1"; data_text := "Welcome";
                       data_audio_url := "/audio/greeting.mp3";
                       data_error := JsUndefined |})))
                    (step ClickStart (mounted 0)))).
  { apply reach_step, reach_step, reach_mounted. }
  split; [apply (Hreach _ Hw)|]. split.
  - apply Hplay. apply (Hreach _ Hw).
  - apply Hstart; [exact Hw | discriminate].
Defined.

(** C10 as stated fails in its last part: the status can return to
    LISTENING while the new audio still plays.  Two greetings are in
    flight (Start, End before any session exists, Start again); the
    first is played to its end, which starts recognition; the second is
    then played, and the start event of the recognition sets LISTENING
    while that audio is playing. *)
Lemma listening_while_audio_plays :
  let greeting := {| data_session_id := Some "S1"; data_text := "Welcome";
                     data_audio_url := "/audio/greeting.mp3";
                     data_error := JsUndefined |} in
  let w := run [EffectRuns true; ClickStart; ClickEnd; ClickStart;
                Settled 0 (Resolved (Some greeting));
                AudioEnded 0;
                Settled 0 (Resolved (Some greeting))] (mounted 0) in
  reachable w /\
  callStatus (home w) = SPEAKING /\
  audioRef (home w) = Some 1%nat /\
  playing <$> audios (home w) = [false; true] /\
  callStatus (home (step RecognitionStarted w)) = LISTENING /\
  playing <$> audios (home (step RecognitionStarted w)) = [false; true].
Proof.
  split; [|vm_compute; repeat split].
  unfold run. cbn [foldl]. repeat apply reach_step. apply reach_mounted.
Qed.

(** * The rest of the component *)

(** ** One event, one move *)

Lemma startCall_settles st : async_settles (startCall st).
Proof.
  unfold startCall, async_settles. intros o st2.
  destruct o as [|[d|]]; eexists; (split; [reflexivity|]); constructor.
Qed.

Lemma handleUserSpeech_settles sid utterance st :
  async_settles (handleUserSpeech sid utterance st).
Proof.
  unfold handleUserSpeech. destruct (_ || _); [exact I|].
  unfold async_settles. intros o st2.
  destruct o as [|[d|]]; [| destruct (truthy (data_error d)) |];
    eexists; (split; [reflexivity|]); constructor.
Qed.

Lemma endCall_settles sid st : async_settles (endCall sid st).
Proof.
  unfold endCall. destruct (truthy (of_nullable sid)); [|exact I].
  unfold async_settles. intros o st2.
  destruct o; eexists; (split; [reflexivity|]); constructor.
Qed.

Lemma launch_settle a ps :
  async_settles a ->
  Forall (fun p => forall o st, exists st', p.2 o st = Done st' /\ settles st st') ps ->
  conts_settle (launch a ps).
Proof.
  intros Ha Hps. destruct a as [st|st req k]; unfold conts_settle; simpl.
  - exact Hps.
  - apply Forall_app. split; [exact Hps|].
    constructor; [exact Ha | constructor].
Qed.

Lemma step_settle e w : conts_settle w -> conts_settle (step e w).
Proof.
  intros Hw.
  destruct e as [supported| | | |i rs t|sid utterance|h|h|i o|now];
    cbn [step]; try exact Hw.
  - destruct (control _); try exact Hw.
    apply launch_settle; [apply startCall_settles | exact Hw].
  - destruct (control _); try exact Hw.
    apply launch_settle; [apply endCall_settles | exact Hw].
  - apply launch_settle; [|exact Hw]. unfold silenceTimeout.
    destruct (recognitionRef (home w)); [|exact I].
    apply handleUserSpeech_settles.
  - destruct (audios (home w) !! h) as [a|]; [|exact Hw].
    destruct (playing a); exact Hw.
  - destruct (audios (home w) !! h); exact Hw.
  - destruct (pending w !! i) as [[req k]|] eqn:Hi; [|exact Hw].
    unfold conts_settle in Hw. pose proof Hw as Hall.
    rewrite Forall_lookup in Hall.
    destruct (Hall _ _ Hi o (home w)) as (st' & Hk & _).
    cbn [snd] in Hk. rewrite Hk. apply Forall_delete, Hw.
Qed.

Lemma reachable_settle w : reachable w -> conts_settle w.
Proof.
  induction 1 as [now|e w _ IH]; [constructor | apply step_settle, IH].
Qed.

Lemma endCall_yield sid st :
  state_of (endCall sid st) =
  if truthy (of_nullable sid)
  then emit (Fetch (POST "/end_call" [("session_id", of_nullable sid)])) (hung_up st)
  else reset_after_save (hung_up st).
Proof.
  destruct (truthy (of_nullable sid)) eqn:Hsid.
  - destruct (endCall_session sid st Hsid) as (k & -> & _).
    unfold hung_up, emit.
    cbn [state_of callStatus transcript logs sessionId audioRef recognitionRef
         silenceTimerRef accumulatedTextRef audios clock trace].
    rewrite app_assoc. reflexivity.
  - rewrite (endCall_no_session sid st Hsid). reflexivity.
Qed.

(** Every event leaves the component where it was or takes it along one
    of the [moves]. *)
Lemma step_moves e w :
  conts_settle w ->
  home (step e w) = home w \/ moves (home w) (home (step e w)).
Proof.
  intros Hw.
  destruct e as [supported| | | |i rs t|sid utterance|h|h|i o|now];
    cbn [step home].
  - right. constructor.
  - destruct (callStatus (home w)) eqn:Hs; cbn [control]; try (left; reflexivity).
    right. cbn [launch startCall home]. constructor. exact Hs.
  - destruct (control _); try (left; reflexivity).
    right. rewrite home_launch, endCall_yield.
    destruct (truthy (of_nullable (sessionId (home w)))) eqn:Hsid;
      constructor; exact Hsid.
  - right. constructor.
  - right. constructor.
  - right. rewrite home_launch. unfold silenceTimeout.
    destruct (recognitionRef (home w)) as [r|] eqn:Hr.
    + unfold handleUserSpeech.
      destruct (negb (truthy (JsString (trim utterance))) ||
                negb (truthy (of_nullable sid))) eqn:Hg; cbn [state_of].
      * apply (moves_silence_dropped sid); [congruence|].
        apply orb_true_iff in Hg as [Hg|Hg]; apply negb_true_iff in Hg.
        -- left. apply trim_empty_iff, Hg.
        -- right. exact Hg.
      * apply orb_false_iff in Hg as [Hg1 Hg2].
        apply negb_false_iff in Hg1, Hg2.
        apply moves_silence_sent; [congruence| |exact Hg2].
        destruct (whitespace_only utterance) eqn:Hws; [|reflexivity].
        apply trim_empty_iff in Hws. congruence.
    + cbn [state_of]. constructor. exact Hr.
  - destruct (audios (home w) !! h) as [a|] eqn:Ha; [|left; reflexivity].
    destruct (playing a) eqn:Hp; [|left; reflexivity].
    right. cbn [home]. apply (moves_ended h a); assumption.
  - destruct (audios (home w) !! h) as [a|] eqn:Ha; [|left; reflexivity].
    right. cbn [home]. apply (moves_play_rejected h a). exact Ha.
  - destruct (pending w !! i) as [[req k]|] eqn:Hi; [|left; reflexivity].
    right. unfold conts_settle in Hw. rewrite Forall_lookup in Hw.
    destruct (Hw _ _ Hi o (home w)) as (st' & Hk & Hst').
    cbn [snd] in Hk. rewrite Hk. cbn [launch home].
    apply moves_settled, Hst'.
  - right. apply moves_tick.
Qed.

(** What holds when the component is mounted and is kept by every move
    holds in every state the component reaches. *)
Lemma reachable_invariant (P : Home -> Prop) :
  (forall now, P (initial now)) ->
  (forall st st', moves st st' -> P st -> P st') ->
  forall w, reachable w -> P (home w).
Proof.
  intros Hinit Hmove w Hw. induction Hw as [now|e w Hw IH].
  - apply Hinit.
  - destruct (step_moves e w (reachable_settle w Hw)) as [-> | Hm].
    + exact IH.
    + exact (Hmove _ _ Hm IH).
Qed.

(** ** The senders of the log *)

Lemma known_senders_kept st st' :
  moves st st' -> known_senders st -> known_senders st'.
Proof.
  unfold known_senders. intros M H.
  move_cases M; rewrite ?playAudio_unfold; open_state st; cbn [logs] in H; reveal;
    try exact H; try constructor;
    (apply Forall_app; split; [exact H|]);
    (constructor; [cbn; auto | constructor]).
Qed.

(** X10. Every line of the log the component can ever show is the
    guest's, drawn on the right, or Aria's, drawn on the left. *)
Theorem log_lines_are_guest_or_aria (w : World) :
  reachable w ->
  Forall (fun e => (sender e = "Guest" /\ log_row e = "flex justify-end") \/
                   (sender e = "Aria" /\ log_row e = "flex justify-start"))
         (logs (home w)).
Proof.
  intros Hw.
  assert (H : known_senders (home w)).
  { apply (reachable_invariant known_senders); [constructor | | exact Hw].
    apply known_senders_kept. }
  unfold known_senders in H. eapply Forall_impl; [exact H|].
  intros e [He|He]; [left | right]; (split; [exact He|]);
    unfold log_row; rewrite He; reflexivity.
Qed.

Lemma log_lines_are_guest_or_aria_witness :
  Forall (fun e => (sender e = "Guest" /\ log_row e = "flex justify-end") \/
                   (sender e = "Aria" /\ log_row e = "flex justify-start"))
    (logs (home (run [ClickStart;
                      Settled 0 (Resolved (Some
                        {| data_session_id := Some "S1"; data_text := "Welcome";
                           data_audio_url := "/audio/greeting.mp3";
                           data_error := JsUndefined |}));
                      SilenceElapsed (Some "S1") "hello"] (mounted 0)))).
Proof.
  apply log_lines_are_guest_or_aria.
  unfold run. cbn [foldl]. repeat apply reach_step. apply reach_mounted.
Defined.

(** ** The guest's lines and the requests sent *)

Lemma chat_texts_app tr1 tr2 :
  chat_texts (tr1 ++ tr2) = chat_texts tr1 ++ chat_texts tr2.
Proof. apply omap_app. Qed.

Lemma guest_texts_app l1 l2 :
  guest_texts (l1 ++ l2) = guest_texts l1 ++ guest_texts l2.
Proof. unfold guest_texts. rewrite filter_app, fmap_app. reflexivity. Qed.

Lemma guest_lines_sent_kept st st' :
  moves st st' -> guest_lines_sent st -> guest_lines_sent st'.
Proof.
  unfold guest_lines_sent. intros M H.
  move_cases M; rewrite ?playAudio_unfold; open_state st; destruct s0 as [s|]; cbn [logs trace] in H;
    unfold hang_up_effects, pause_effects; reveal;
    rewrite ?chat_texts_app, ?guest_texts_app; cbn [chat_texts omap chat_text
      guest_texts filter list_filter fmap list_fmap app];
    rewrite ?app_nil_r;
    try exact H; try apply suffix_nil; try (apply suffix_app; exact H).
Qed.

(** X9. In every state the component reaches, the guest's lines on
    screen are, in order, the utterances of the last chat requests sent:
    each was sent to /chat, none sent after the first of them is missing
    from the screen. *)
Theorem guest_lines_were_sent (w : World) :
  reachable w ->
  guest_texts (logs (home w)) `suffix_of` chat_texts (trace (home w)).
Proof.
  intros Hw.
  apply (reachable_invariant guest_lines_sent); [| | exact Hw].
  - intros now. apply suffix_nil.
  - apply guest_lines_sent_kept.
Qed.

Lemma guest_lines_were_sent_witness :
  let w := run [ClickStart;
                Settled 0 (Resolved (Some
                  {| data_session_id := Some "S1"; data_text := "Welcome";
                     data_audio_url := "/audio/greeting.mp3";
                     data_error := JsUndefined |}));
                EffectRuns true;
                SilenceElapsed (Some "S1") "hello"] (mounted 0) in
  guest_texts (logs (home w)) = ["hello"] /\
  guest_texts (logs (home w)) `suffix_of` chat_texts (trace (home w)).
Proof.
  split; [reflexivity|].
  apply guest_lines_were_sent.
  unfold run. cbn [foldl]. repeat apply reach_step. apply reach_mounted.
Defined.

(** ** The silence timer *)

Lemma outstanding_after_app live tr1 tr2 :
  outstanding_after live (tr1 ++ tr2) =
  outstanding_after (outstanding_after live tr1) tr2.
Proof.
  revert live. induction tr1 as [|e tr1 IH]; intros live; [reflexivity|].
  destruct e; cbn [app outstanding_after]; apply IH.
Qed.

Lemma outstanding_app tr1 tr2 :
  outstanding (tr1 ++ tr2) = outstanding_after (outstanding tr1) tr2.
Proof. apply outstanding_after_app. Qed.

Lemma filter_ne_self (t : nat) : filter (fun x => x <> t) [t] = [].
Proof. rewrite filter_cons_False by auto. reflexivity. Qed.

Lemma one_timer_kept st st' : moves st st' -> one_timer st -> one_timer st'.
Proof.
  unfold one_timer, timer_ids_positive. intros M H.
  move_cases M; rewrite ?playAudio_unfold; open_state st;
    cbn [trace silenceTimerRef] in H;
    unfold hang_up_effects, pause_effects; reveal;
    rewrite <- ?app_assoc, ?app_nil_r; intros Hpos';
    (first [apply Forall_app in Hpos' as [Hpos Hnew] | pose proof Hpos' as Hpos]);
    specialize (H Hpos);
    rewrite ?outstanding_app; cbn [outstanding_after app];
    try exact H;
    try (cbn [app] in Hnew);
    repeat match goal with
      | Hl : Forall _ (_ :: _) |- _ => apply Forall_cons in Hl as [? Hl]
      end;
    cbn [positive_timer] in *;
    (destruct H as [H|(t0 & Ht & Hne & H)];
     [|try discriminate Ht; try (injection Ht as <-); try congruence]);
    rewrite H, ?filter_ne_self; cbn [filter list_filter app];
    first [ left; reflexivity
          | right; eexists; split; [reflexivity|];
            split; [assumption | reflexivity] ].
Qed.

Lemma reachable_one_timer w : reachable w -> one_timer (home w).
Proof.
  apply (reachable_invariant one_timer).
  - intros now _. left. reflexivity.
  - apply one_timer_kept.
Qed.

(** What the test on the timer ref lets through: with id 0 in the ref a
    recognition result clears nothing, and the timer armed before stays
    armed beside the new one. *)
Remark timer_id_zero_is_not_cleared :
  let st := onresult 0 ["Is a"] 0 (useEffect true (initial 0)) in
  outstanding (trace (onresult 0 ["Is a room"] 7 st)) = [0%nat; 7%nat].
Proof. reflexivity. Qed.

(** X6. Provided the ids [setTimeout] returned were positive, as a
    browser's are, a recognition result cancels the timer of the result
    before it and arms its own: after it exactly one timer is
    outstanding, the one it armed, held in [silenceTimerRef]; and in
    every state the component reaches no timer is outstanding but the one
    [silenceTimerRef] holds.  The text shown after a result is the text
    gathered from it. *)
Theorem silence_timer_debounced (w : World) :
  reachable w ->
  (forall resultIndex results timer,
     let st' := home (step (RecognitionResult resultIndex results timer) w) in
     transcript st' = currentTranscript resultIndex results /\
     silenceTimerRef st' = Some timer /\
     (timer_ids_positive (trace st') -> outstanding (trace st') = [timer])) /\
  (timer_ids_positive (trace (home w)) ->
   outstanding (trace (home w)) = [] \/
   exists t, silenceTimerRef (home w) = Some t /\
             outstanding (trace (home w)) = [t]).
Proof.
  intros Hw. split.
  - intros i rs t st'. subst st'.
    assert (Hw' : reachable (step (RecognitionResult i rs t) w))
      by (apply reach_step, Hw).
    pose proof (reachable_one_timer _ Hw') as H. unfold one_timer in H.
    cbn [step home] in *.
    split; [destruct (home w) as [cs tr lg s0 ah r [[|tm]|] acc au ck trc];
            reflexivity|].
    split; [destruct (home w) as [cs tr lg s0 ah r [[|tm]|] acc au ck trc];
            reflexivity|].
    intros Hpos. destruct (H Hpos) as [H0|(t0 & Ht & _ & H0)].
    + exfalso. revert H0.
      destruct (home w) as [cs tr lg s0 ah r [[|tm]|] acc au ck trc];
        reveal; rewrite ?outstanding_app; cbn [outstanding_after];
        intros H0; apply app_eq_nil in H0 as [_ H0]; discriminate H0.
    + rewrite H0. f_equal.
      destruct (home w) as [cs tr lg s0 ah r [[|tm]|] acc au ck trc];
        cbn in Ht; congruence.
  - intros Hpos. destruct (reachable_one_timer w Hw Hpos) as [H|(t & Ht & _ & H)];
      eauto.
Qed.

Lemma silence_timer_debounced_witness :
  let w := run [EffectRuns true;
                RecognitionResult 0 ["Is a"] 1;
                RecognitionResult 0 ["Is a room free?"] 2] (mounted 0) in
  outstanding (trace (home w)) = [2%nat] /\
  outstanding (trace (home (step (RecognitionResult 0 ["Is a room"] 3) w))) = [3%nat].
Proof.
  assert (Hw : reachable (run [EffectRuns true;
                               RecognitionResult 0 ["Is a"] 1;
                               RecognitionResult 0 ["Is a room free?"] 2]
                            (mounted 0))).
  { unfold run. cbn [foldl]. repeat apply reach_step. apply reach_mounted. }
  split; [reflexivity|].
  destruct (silence_timer_debounced _ Hw) as [H _].
  apply (H 0%nat ["Is a room"] 3%nat).
  repeat constructor; discriminate.
Defined.

(** ** Hanging up *)

Lemma hung_up_no_timer st :
  one_timer st ->
  timer_ids_positive (trace st) ->
  outstanding (trace st ++ hang_up_effects st) = [].
Proof.
  unfold one_timer, hang_up_effects, pause_effects. intros H Hpos.
  specialize (H Hpos). rewrite outstanding_app.
  destruct (audioRef st), (recognitionRef st),
    (silenceTimerRef st) as [[|tm]|];
    cbn [app outstanding_after];
    repeat match goal with
      | |- context [truthy (JsNumber (Z.of_nat (S ?n)))] =>
          change (truthy (JsNumber (Z.of_nat (S n)))) with true
      | |- context [truthy (JsNumber (Z.of_nat 0))] =>
          change (truthy (JsNumber (Z.of_nat 0))) with false
      end; cbn [app outstanding_after];
    (destruct H as [H|(t0 & Ht & Hne & H)];
     [|try discriminate Ht; try (injection Ht as <-); try congruence]);
    rewrite H; rewrite ?filter_ne_self; reflexivity.
Qed.

(** X11. Pressing "End Call", in any state the component reaches that
    offers it, pauses the current audio, stops recognition and clears
    the silence timer whose id the ref holds (an id 0 is not cleared),
    in this order and before any request; nothing is playing afterwards
    and, provided the timer ids were positive, no timer is outstanding.
    The request follows only when a session id is held. *)
Theorem end_call_hangs_up (w : World) :
  reachable w ->
  control (callStatus (home w)) = EndCallAndSave ->
  let st := home w in
  let st' := home (step ClickEnd w) in
  playing_count (audios st') = 0%nat /\
  (timer_ids_positive (trace st) -> outstanding (trace st') = []) /\
  trace st' =
    trace st ++ hang_up_effects st ++
    (if truthy (of_nullable (sessionId st))
     then [Fetch (POST "/end_call" [("session_id", of_nullable (sessionId st))])]
     else []).
Proof.
  intros Hw Hc st st'. subst st st'. cbn [step]. rewrite Hc.
  rewrite home_launch, endCall_yield.
  pose proof (paused_store_silent _ (reachable_one_voice w Hw)) as Hs.
  pose proof (hung_up_no_timer _ (reachable_one_timer w Hw)) as Ht.
  destruct (truthy (of_nullable (sessionId (home w))));
    unfold reset_after_save, hung_up;
    cbn [emit setCallStatus setTranscript audios trace
         callStatus transcript logs sessionId audioRef recognitionRef
         silenceTimerRef accumulatedTextRef clock].
  - split; [apply silent_count, Hs|]. split.
    + intros Hpos. rewrite outstanding_app, (Ht Hpos). reflexivity.
    + rewrite <- app_assoc. reflexivity.
  - split; [apply silent_count, Hs|]. split.
    + exact Ht.
    + rewrite app_nil_r. reflexivity.
Qed.

Lemma end_call_hangs_up_witness :
  let w := run [EffectRuns true; ClickStart;
                Settled 0 (Resolved (Some
                  {| data_session_id := Some "S1"; data_text := "Welcome";
                     data_audio_url := "/audio/greeting.mp3";
                     data_error := JsUndefined |}));
                AudioEnded 0;
                RecognitionResult 0 ["Is a room free?"] 4;
                SilenceElapsed (Some "S1") "Is a room free?";
                Settled 0 (Resolved (Some
                  {| data_session_id := None; data_text := "Yes.";
                     data_audio_url := "/audio/reply.mp3";
                     data_error := JsUndefined |}));
                RecognitionResult 0 ["and"] 5] (mounted 0) in
  playing_count (audios (home w)) = 1%nat /\
  outstanding (trace (home w)) = [5%nat] /\
  playing_count (audios (home (step ClickEnd w))) = 0%nat /\
  outstanding (trace (home (step ClickEnd w))) = [].
Proof.
  intros w.
  assert (Hw : reachable w).
  { unfold w, run. cbn [foldl]. repeat apply reach_step. apply reach_mounted. }
  assert (Hc : control (callStatus (home w)) = EndCallAndSave)
    by (vm_compute; reflexivity).
  destruct (end_call_hangs_up w Hw Hc) as (Hp & Ht & _).
  split; [vm_compute; reflexivity|]. split; [vm_compute; reflexivity|].
  split; [exact Hp|]. apply Ht.
  vm_compute. repeat constructor; discriminate.
Defined.

(** ** Requests in flight *)

Lemma settles_status st st' :
  settles st st' -> callStatus st' = IDLE \/ callStatus st' = SPEAKING.
Proof.
  intros H. destruct H; rewrite ?playAudio_unfold; cbn; auto.
Qed.

Lemma settles_fetches st st' :
  settles st st' -> fetches (trace st') = fetches (trace st).
Proof.
  intros H. destruct H; rewrite ?playAudio_unfold; unfold pause_effects;
    open_state st; reveal; rewrite ?fetches_app; cbn [fetches];
    rewrite ?app_nil_r; reflexivity.
Qed.

Lemma last_request_launched (req : Request) (k : Cont) (ps : list (Request * Cont)) :
  last (fst <$> (ps ++ [(req, k)])) = Some req.
Proof. rewrite fmap_app. apply last_snoc. Qed.

Lemma busy_same w w' :
  callStatus (home w') = callStatus (home w) ->
  pending w' = pending w ->
  busy_in_flight w -> busy_in_flight w'.
Proof.
  unfold busy_in_flight, last_request. intros -> ->. auto.
Qed.

Lemma busy_kept e w :
  conts_settle w -> busy_in_flight w -> busy_in_flight (step e w).
Proof.
  intros Hw H.
  destruct e as [supported| | | |i rs t|sid utterance|h|h|i o|now];
    cbn [step].
  - apply (busy_same w); [destruct supported| |exact H]; reflexivity.
  - destruct (control _); try exact H.
    unfold busy_in_flight, last_request, startCall. cbn [launch home pending].
    cbn. left. apply last_request_launched.
  - destruct (control _); try exact H.
    unfold endCall. destruct (truthy (of_nullable (sessionId (home w)))).
    + unfold busy_in_flight, last_request. cbn [launch home pending].
      cbn [callStatus emit setTranscript setCallStatus].
      eexists. apply last_request_launched.
    + unfold busy_in_flight. cbn. exact I.
  - unfold busy_in_flight, last_request in *. cbn [home pending].
    unfold onstart, updateCallStatus. cbn [callStatus setCallStatus].
    destruct (callStatus (home w)); try exact I. exact H.
  - apply (busy_same w); [|reflexivity|exact H].
    destruct (home w) as [cs tr lg s0 ah r [[|tm]|] acc au ck trc]; reflexivity.
  - unfold silenceTimeout. destruct (recognitionRef (home w)).
    + unfold handleUserSpeech. destruct (_ || _).
      * apply (busy_same w); [reflexivity|reflexivity|exact H].
      * unfold busy_in_flight, last_request. cbn [launch home pending].
        cbn [callStatus emit addLog setLogs setCallStatus].
        right. eexists. apply last_request_launched.
    + apply (busy_same w); [reflexivity|reflexivity|exact H].
  - destruct (audios (home w) !! h) as [a|]; [|exact H].
    destruct (playing a); [|exact H].
    unfold busy_in_flight. cbn [home].
    destruct (home w) as [cs tr lg s0 ah [r|] tm acc au ck trc]; exact I.
  - destruct (audios (home w) !! h); [|exact H].
    apply (busy_same w); [reflexivity|reflexivity|exact H].
  - destruct (pending w !! i) as [[req k]|] eqn:Hi; [|exact H].
    unfold conts_settle in Hw. rewrite Forall_lookup in Hw.
    destruct (Hw _ _ Hi o (home w)) as (st' & Hk & Hst').
    cbn [snd] in Hk. rewrite Hk. unfold busy_in_flight. cbn [launch home].
    destruct (settles_status _ _ Hst') as [-> | ->]; exact I.
  - apply (busy_same w); [reflexivity|reflexivity|exact H].
Qed.

(** X7. The component is never busy over nothing: in every state it
    reaches, while the status is SAVING the request sent last among
    those in flight is an end_call request, and while it is PROCESSING
    it is the greeting or a chat request. *)
Theorem busy_status_has_request_in_flight (w : World) :
  reachable w ->
  (callStatus (home w) = SAVING ->
     exists body, last_request w = Some (POST "/end_call" body)) /\
  (callStatus (home w) = PROCESSING ->
     last_request w = Some (GET "/greet") \/
     exists body, last_request w = Some (POST "/chat" body)).
Proof.
  intros Hw.
  assert (H : busy_in_flight w).
  { induction Hw as [now|e w Hw IH]; [exact I|].
    apply busy_kept; [apply reachable_settle, Hw | exact IH]. }
  unfold busy_in_flight in H. split; intros Hs; rewrite Hs in H; exact H.
Qed.

Lemma busy_status_has_request_in_flight_witness :
  let w := run [ClickStart;
                Settled 0 (Resolved (Some
                  {| data_session_id := Some "S1"; data_text := "Welcome";
                     data_audio_url := "/audio/greeting.mp3";
                     data_error := JsUndefined |}));
                ClickEnd] (mounted 0) in
  callStatus (home w) = SAVING /\
  exists body, last_request w = Some (POST "/end_call" body).
Proof.
  split; [reflexivity|].
  apply busy_status_has_request_in_flight; [|reflexivity].
  unfold run. cbn [foldl]. repeat apply reach_step. apply reach_mounted.
Defined.

(** X8. When a request in flight settles, whatever its outcome and
    whatever the component was doing, the status becomes IDLE or
    SPEAKING, the request leaves the set in flight, and no request is
    sent in answer. *)
Theorem settled_request_ends_idle_or_speaking (w : World) (i : nat) (o : FetchOutcome) :
  reachable w ->
  (i < length (pending w))%nat ->
  let w' := step (Settled i o) w in
  (callStatus (home w') = IDLE \/ callStatus (home w') = SPEAKING) /\
  pending w' = delete i (pending w) /\
  fetches (trace (home w')) = fetches (trace (home w)).
Proof.
  intros Hw Hi w'. subst w'. cbn [step].
  destruct (pending w !! i) as [[req k]|] eqn:Hk;
    [|apply lookup_ge_None in Hk;
      destruct (Nat.lt_irrefl _ (Nat.lt_le_trans _ _ _ Hi Hk))].
  pose proof (reachable_settle w Hw) as Hs.
  unfold conts_settle in Hs. rewrite Forall_lookup in Hs.
  destruct (Hs _ _ Hk o (home w)) as (st' & Hd & Hst').
  cbn [snd] in Hd. rewrite Hd. cbn [launch home pending].
  split; [exact (settles_status _ _ Hst')|].
  split; [reflexivity | exact (settles_fetches _ _ Hst')].
Qed.

Lemma settled_request_ends_idle_or_speaking_witness :
  let w := run [ClickStart] (mounted 0) in
  callStatus (home (step (Settled 0 Rejected) w)) = IDLE \/
  callStatus (home (step (Settled 0 Rejected) w)) = SPEAKING.
Proof.
  apply settled_request_ends_idle_or_speaking.
  - unfold run. cbn [foldl]. repeat apply reach_step. apply reach_mounted.
  - cbn. lia.
Defined.

(** ** The session id *)

(** X12. The stored session id changes only when a request settles: no
    click, no recognition, timer or audio event and no run of the effect
    changes it.  In particular pressing "End Call" leaves it in place
    until the end_call request settles. *)
Theorem session_id_changes_only_on_settle (w : World) (e : Event) :
  (forall i o, e <> Settled i o) ->
  sessionId (home (step e w)) = sessionId (home w).
Proof.
  intros He.
  destruct e as [supported| | | |i rs t|sid utterance|h|h|i o|now];
    cbn [step].
  - destruct supported; reflexivity.
  - destruct (control _); reflexivity.
  - destruct (control _); try reflexivity.
    rewrite home_launch, endCall_yield.
    destruct (truthy _); reflexivity.
  - reflexivity.
  - destruct (home w) as [cs tr lg s0 ah r [[|tm]|] acc au ck trc]; reflexivity.
  - rewrite home_launch. unfold silenceTimeout.
    destruct (recognitionRef (home w)); [|reflexivity].
    destruct (handleUserSpeech_yields sid utterance
                (set_accumulatedTextRef utterance
                   (emit RecognitionStop (home w))))
      as [-> | ->]; reflexivity.
  - destruct (audios (home w) !! h) as [a|]; [|reflexivity].
    destruct (playing a); [|reflexivity].
    destruct (home w) as [cs tr lg s0 ah [r|] tm acc au ck trc]; reflexivity.
  - destruct (audios (home w) !! h); reflexivity.
  - destruct (He i o eq_refl).
  - reflexivity.
Qed.

Lemma session_id_changes_only_on_settle_witness :
  let w := run [ClickStart;
                Settled 0 (Resolved (Some
                  {| data_session_id := Some "S1"; data_text := "Welcome";
                     data_audio_url := "/audio/greeting.mp3";
                     data_error := JsUndefined |}))] (mounted 0) in
  sessionId (home (step ClickEnd w)) = Some "S1".
Proof.
  cbv zeta.
  rewrite (session_id_changes_only_on_settle _ ClickEnd); [reflexivity|].
  intros i o. discriminate.
Defined.

(** ** The recognition object *)

Lemma type_errors_app tr1 tr2 :
  type_errors (tr1 ++ tr2) = (type_errors tr1 + type_errors tr2)%nat.
Proof.
  induction tr1 as [|e tr1 IH]; simpl; [reflexivity|].
  destruct e; simpl; rewrite IH; reflexivity.
Qed.

Lemma configured_kept st st' : moves st st' -> configured st -> configured st'.
Proof.
  unfold configured. intros M H.
  move_cases M; rewrite ?playAudio_unfold; open_state st; cbn [recognitionRef] in H; reveal;
    try exact H.
  all: intros r0 Hr0; injection Hr0 as <-; repeat split.
Qed.

Lemma recognition_kept st st' :
  moves st st' ->
  recognitionRef st <> None ->
  recognitionRef st' <> None /\
  type_errors (trace st') = type_errors (trace st).
Proof.
  intros M H.
  move_cases M; rewrite ?playAudio_unfold; open_state st; cbn [recognitionRef] in *;
    try congruence;
    unfold hang_up_effects, pause_effects; reveal;
    rewrite ?type_errors_app; cbn [type_errors];
    (split; [discriminate | lia]).
Qed.

(** X13. Once the effect has created a recognition object the ref is
    never emptied: in every state the component reaches the object, if
    there is one, is continuous, reports interim results and listens for
    en-US, and from such a state no event empties the ref or makes a
    call on a missing object. *)
Theorem recognition_object_stays (w : World) :
  reachable w ->
  configured (home w) /\
  forall e,
    recognitionRef (home w) <> None ->
    recognitionRef (home (step e w)) <> None /\
    type_errors (trace (home (step e w))) = type_errors (trace (home w)).
Proof.
  intros Hw. split.
  - apply (reachable_invariant configured); [| |exact Hw].
    + intros now r Hr. discriminate.
    + apply configured_kept.
  - intros e Hr.
    destruct (step_moves e w (reachable_settle w Hw)) as [-> | Hm].
    + split; [exact Hr | reflexivity].
    + exact (recognition_kept _ _ Hm Hr).
Qed.

Lemma recognition_object_stays_witness :
  let w := run [EffectRuns true; ClickStart] (mounted 0) in
  recognitionRef (home (step (EffectRuns false) w)) <> None /\
  type_errors (trace (home (step (SilenceElapsed None "hi") w))) = 0%nat.
Proof.
  assert (Hw : reachable (run [EffectRuns true; ClickStart] (mounted 0))).
  { unfold run. cbn [foldl]. repeat apply reach_step. apply reach_mounted. }
  destruct (recognition_object_stays _ Hw) as [_ H]. split.
  - apply (H (EffectRuns false)). discriminate.
  - apply (H (SilenceElapsed None "hi")). discriminate.
Defined.

(** ** The current audio element *)

Lemma current_is_newest_kept st st' :
  moves st st' -> current_is_newest st -> current_is_newest st'.
Proof.
  unfold current_is_newest. intros M H.
  move_cases M; rewrite ?playAudio_unfold; unfold paused_store; open_state st;
    cbn [audioRef audios] in H; reveal;
    rewrite ?length_app, ?length_alter; cbn [length];
    try exact H; try lia; subst au; reflexivity.
Qed.

(** X16. In every state the component reaches [audioRef] holds the audio
    element created last, and is empty only while none was created: an
    older element is never the current one again. *)
Theorem current_audio_is_newest (w : World) :
  reachable w ->
  match audioRef (home w) with
  | Some h => length (audios (home w)) = S h
  | None => audios (home w) = []
  end.
Proof.
  apply (reachable_invariant current_is_newest).
  - intros now. reflexivity.
  - apply current_is_newest_kept.
Qed.

Lemma current_audio_is_newest_witness :
  let d := {| data_session_id := Some "S1"; data_text := "Welcome";
              data_audio_url := "/audio/greeting.mp3";
              data_error := JsUndefined |} in
  let w := run [EffectRuns true; ClickStart; Settled 0 (Resolved (Some d));
                SilenceElapsed (Some "S1") "hello";
                Settled 0 (Resolved (Some d))] (mounted 0) in
  audioRef (home w) = Some 1%nat /\
  match audioRef (home w) with
  | Some h => length (audios (home w)) = S h
  | None => audios (home w) = []
  end.
Proof.
  split; [reflexivity|].
  apply current_audio_is_newest.
  unfold run. cbn [foldl]. repeat apply reach_step. apply reach_mounted.
Defined.

(** ** Starting a call *)

Lemma handleUserSpeech_dropped sid utterance st :
  whitespace_only utterance = true \/ truthy (of_nullable sid) = false ->
  handleUserSpeech sid utterance st = Done st.
Proof.
  intros H. unfold handleUserSpeech. destruct H as [H|H].
  - apply trim_empty_iff in H. rewrite H. reflexivity.
  - rewrite H, orb_true_r. reflexivity.
Qed.

(** X1. [startCall] empties the log and shows "Connecting to Aria..." in
    PROCESSING while the greeting is fetched.  When the request fails or
    its body does not parse, the client goes back to IDLE with "Error
    connecting to server.", writes the exception to the console, and
    leaves the session id, the log and the audio elements as they are. *)
Theorem startCall_failure_returns_to_idle (st : Home) :
  exists st1 k,
    startCall st = Await st1 (GET "/greet") k /\
    callStatus st1 = PROCESSING /\
    transcript st1 = "Connecting to Aria..." /\
    logs st1 = [] /\
    forall o st2,
      o = Rejected \/ o = Resolved None ->
      exists st3, k o st2 = Done st3 /\
        callStatus st3 = IDLE /\
        transcript st3 = "Error connecting to server." /\
        trace st3 = trace st2 ++ [ConsoleErrorCaught] /\
        sessionId st3 = sessionId st2 /\
        logs st3 = logs st2 /\
        audios st3 = audios st2 /\
        audioRef st3 = audioRef st2.
Proof.
  unfold startCall. eexists _, _. split; [reflexivity|].
  repeat (split; [reflexivity|]).
  intros o st2 [-> | ->]; eexists; (split; [reflexivity|]); repeat split.
Qed.

Lemma startCall_failure_returns_to_idle_witness :
  exists st1 k,
    startCall (initial 0) = Await st1 (GET "/greet") k /\
    exists st3, k Rejected st1 = Done st3 /\
      transcript st3 = "Error connecting to server.".
Proof.
  destruct (startCall_failure_returns_to_idle (initial 0))
    as (st1 & k & Hk & _ & _ & _ & Hfail).
  exists st1, k. split; [exact Hk|].
  destruct (Hfail Rejected st1 (or_introl eq_refl)) as (st3 & H3 & _ & Ht & _).
  exists st3. split; [exact H3 | exact Ht].
Defined.

(** X2. A greeting whose reply has no session id (or an empty one) is
    played all the same, but the call it opens is deaf and leaves no
    record: with the session cell as the reply left it, every utterance
    is dropped without a request and "End Call" sends no request. *)
Theorem greeting_without_session_id (st : Home) :
  exists st1 k,
    startCall st = Await st1 (GET "/greet") k /\
    forall d st2,
      truthy (of_nullable (data_session_id d)) = false ->
      exists st3, k (Resolved (Some d)) st2 = Done st3 /\
        callStatus st3 = SPEAKING /\
        playing_count (audios st3) = S (playing_count (paused_store st2)) /\
        (forall utterance,
           handleUserSpeech (sessionId st3) utterance st3 = Done st3) /\
        exists st4, endCall (sessionId st3) st3 = Done st4 /\
          fetches (trace st4) = fetches (trace st3).
Proof.
  unfold startCall. eexists _, _. split; [reflexivity|].
  intros d st2 Hd. eexists. split; [reflexivity|].
  rewrite playAudio_unfold.
  cbn [callStatus sessionId audios setSessionId].
  split; [reflexivity|]. split.
  - unfold playing_count, paused_store. cbn [audioRef audios].
    rewrite filter_app, length_app, Nat.add_comm. reflexivity.
  - split.
    + intros utterance. apply handleUserSpeech_dropped. right. exact Hd.
    + rewrite (endCall_no_session _ _ Hd). eexists. split; [reflexivity|].
      cbn [trace]. rewrite (fetches_app (_ ++ _)), fetches_hang_up, app_nil_r.
      reflexivity.
Qed.

Lemma greeting_without_session_id_witness :
  let d := {| data_session_id := None; data_text := "Welcome";
              data_audio_url := "/audio/greeting.mp3";
              data_error := JsUndefined |} in
  exists st1 k,
    startCall (initial 0) = Await st1 (GET "/greet") k /\
    exists st3, k (Resolved (Some d)) st1 = Done st3 /\
      handleUserSpeech (sessionId st3) "Is a room free?" st3 = Done st3.
Proof.
  destruct (greeting_without_session_id (initial 0)) as (st1 & k & Hk & H).
  exists st1, k. split; [exact Hk|].
  destruct (H {| data_session_id := None; data_text := "Welcome";
                 data_audio_url := "/audio/greeting.mp3";
                 data_error := JsUndefined |} st1 eq_refl)
    as (st3 & H3 & _ & _ & Hdrop & _).
  exists st3. split; [exact H3 | apply Hdrop].
Defined.

(** ** Speech *)

(** X3. [handleUserSpeech] sends a request exactly when the utterance
    has a character that is not white space and the session id is not
    empty; the request is a POST to /chat that carries the utterance as
    it was given, untrimmed, and the session id. *)
Theorem chat_request_sent_iff (sid : option string) (utterance : string) (st : Home) :
  ((exists st1 req k, handleUserSpeech sid utterance st = Await st1 req k) <->
   whitespace_only utterance = false /\ truthy (of_nullable sid) = true) /\
  forall st1 req k,
    handleUserSpeech sid utterance st = Await st1 req k ->
    req = POST "/chat" [("text", JsString utterance);
                        ("session_id", of_nullable sid)] /\
    last (trace st1) = Some (Fetch req).
Proof.
  split; [split|].
  - intros (st1 & req & k & H).
    destruct (whitespace_only utterance) eqn:Hws.
    + rewrite (handleUserSpeech_dropped sid utterance st (or_introl Hws)) in H.
      discriminate.
    + destruct (truthy (of_nullable sid)) eqn:Hsid; [auto|].
      rewrite (handleUserSpeech_dropped sid utterance st (or_intror Hsid)) in H.
      discriminate.
  - intros [Hws Hsid]. unfold handleUserSpeech.
    rewrite (handleUserSpeech_guard _ _ Hws Hsid). eauto.
  - unfold handleUserSpeech. destruct (_ || _); [discriminate|].
    intros st1 req k H. injection H as <- <- _.
    split; [reflexivity | apply last_snoc].
Qed.

Lemma chat_request_sent_iff_witness :
  exists st1 req k,
    handleUserSpeech (Some "S1") "  Is a room free? " (initial 0) = Await st1 req k.
Proof.
  apply (chat_request_sent_iff (Some "S1") "  Is a room free? " (initial 0)).
  split; reflexivity.
Defined.

(** X4. When the silence timer fires and there is a recognition object,
    recognition is stopped first and the text is kept in
    [accumulatedTextRef], whether or not the utterance is then sent, and
    recognition is not started again.  An utterance that is dropped
    leaves the status, the log and the requests as they were.  Without a
    recognition object the callback fails on its first call and does
    nothing else. *)
Theorem silence_timeout_stops_recognition (sid : option string) (utterance : string)
    (st : Home) :
  (recognitionRef st <> None ->
     let st' := state_of (silenceTimeout sid utterance st) in
     accumulatedTextRef st' = utterance /\
     (exists rest, trace st' = trace st ++ RecognitionStop :: rest) /\
     starts (trace st') = starts (trace st) /\
     (whitespace_only utterance = true \/ truthy (of_nullable sid) = false ->
        silenceTimeout sid utterance st = Done st' /\
        callStatus st' = callStatus st /\
        logs st' = logs st /\
        fetches (trace st') = fetches (trace st))) /\
  (recognitionRef st = None ->
     silenceTimeout sid utterance st = Done (emit UncaughtTypeError st)).
Proof.
  unfold silenceTimeout. split.
  - intros Hr. destruct (recognitionRef st) as [r|]; [clear Hr|congruence].
    cbv zeta. repeat split.
    + destruct (handleUserSpeech_yields sid utterance
                  (set_accumulatedTextRef utterance (emit RecognitionStop st)))
        as [-> | ->]; reflexivity.
    + destruct (handleUserSpeech_yields sid utterance
                  (set_accumulatedTextRef utterance (emit RecognitionStop st)))
        as [-> | ->]; cbn [trace emit set_accumulatedTextRef addLog setLogs
                           setCallStatus].
      * exists []. reflexivity.
      * eexists. rewrite <- app_assoc. reflexivity.
    + destruct (handleUserSpeech_yields sid utterance
                  (set_accumulatedTextRef utterance (emit RecognitionStop st)))
        as [-> | ->]; cbn [trace emit set_accumulatedTextRef addLog setLogs
                           setCallStatus];
        rewrite !starts_app; simpl; lia.
    + rewrite (handleUserSpeech_dropped _ _ _ H). reflexivity.
    + rewrite (handleUserSpeech_dropped _ _ _ H). reflexivity.
    + rewrite (handleUserSpeech_dropped _ _ _ H). reflexivity.
    + rewrite (handleUserSpeech_dropped _ _ _ H).
      cbn [state_of trace emit set_accumulatedTextRef].
      rewrite fetches_app. cbn. apply app_nil_r.
  - intros ->. reflexivity.
Qed.

Lemma silence_timeout_stops_recognition_witness :
  let st := useEffect true (setSessionId (Some "S1") (initial 0)) in
  accumulatedTextRef (state_of (silenceTimeout (Some "S1") " " st)) = " " /\
  callStatus (state_of (silenceTimeout (Some "S1") " " st)) = callStatus st /\
  silenceTimeout None "hello" (initial 0) = Done (emit UncaughtTypeError (initial 0)).
Proof.
  cbv zeta.
  destruct (silence_timeout_stops_recognition (Some "S1") " "
              (useEffect true (setSessionId (Some "S1") (initial 0))))
    as [H _].
  destruct (H ltac:(discriminate)) as (Hacc & _ & _ & Hdrop).
  destruct (Hdrop (or_introl eq_refl)) as (_ & Hs & _).
  split; [exact Hacc|]. split; [exact Hs|].
  apply (silence_timeout_stops_recognition None "hello" (initial 0)).
  reflexivity.
Defined.

(** *** The text of a recognition result *)

Lemma append_empty_r (s : string) : s +:+ "" = s.
Proof.
  induction s as [|c s IH]; [reflexivity | exact (f_equal (String c) IH)].
Qed.

Lemma append_assoc (s1 s2 s3 : string) : (s1 +:+ s2) +:+ s3 = s1 +:+ (s2 +:+ s3).
Proof.
  induction s1 as [|c s1 IH]; [reflexivity | exact (f_equal (String c) IH)].
Qed.

Lemma join_from (acc : string) (rs : list string) :
  foldl (fun acc r => acc +:+ r) acc rs =
  acc +:+ foldl (fun acc r => acc +:+ r) "" rs.
Proof.
  revert acc. induction rs as [|r rs IH]; intros acc; cbn [foldl].
  - symmetry. apply append_empty_r.
  - rewrite IH, (IH ("" +:+ r)). cbn [String.app]. apply append_assoc.
Qed.

(** X5. The text [onresult] gathers is the first alternatives of the
    results from [resultIndex] on, joined in order without a separator:
    results before [resultIndex] do not count, an index at or past the
    end gives the empty text, and a further result adds its text at the
    end. *)
Theorem currentTranscript_joins_results :
  (forall i rs, (length rs <= i)%nat -> currentTranscript i rs = "") /\
  (forall rs1 rs2,
     currentTranscript (length rs1) (rs1 ++ rs2) = currentTranscript 0 rs2) /\
  (forall r rs, currentTranscript 0 (r :: rs) = r +:+ currentTranscript 0 rs) /\
  (forall i rs r,
     (i <= length rs)%nat ->
     currentTranscript i (rs ++ [r]) = currentTranscript i rs +:+ r).
Proof.
  unfold currentTranscript. repeat split.
  - intros i rs H. rewrite drop_ge by exact H. reflexivity.
  - intros rs1 rs2. rewrite drop_app_length. reflexivity.
  - intros r rs. cbn [drop foldl]. rewrite join_from. reflexivity.
  - intros i rs r H. rewrite drop_app_le by exact H. apply foldl_snoc.
Qed.

Lemma currentTranscript_joins_results_witness :
  currentTranscript 5 ["Is a "; "room free?"] = "" /\
  currentTranscript 1 (["Is a "; "room"] ++ [" free?"]) =
    currentTranscript 1 ["Is a "; "room"] +:+ " free?".
Proof.
  destruct currentTranscript_joins_results as (Hge & _ & _ & Hsnoc).
  split.
  - apply Hge. simpl. lia.
  - apply Hsnoc. simpl. lia.
Defined.

(** ** What is drawn *)

(** X14. The glow of the card tells the status: no two statuses get the
    same classes. *)
Theorem getCardGlow_injective (s1 s2 : CallStatus) :
  getCardGlow s1 = getCardGlow s2 -> s1 = s2.
Proof.
  destruct s1, s2; intros H; try reflexivity;
    apply String.eqb_eq in H; vm_compute in H; discriminate H.
Qed.

Lemma getCardGlow_injective_witness :
  getCardGlow SAVING <> getCardGlow IDLE.
Proof.
  intros H. apply (getCardGlow_injective SAVING IDLE) in H. discriminate H.
Defined.

(** X15. The orb has four looks.  Its halo and its sphere are drawn the
    same for two statuses exactly when the statuses are equal or are
    SPEAKING and PROCESSING: the orb does not tell these two apart and
    tells every other pair apart. *)
Theorem Orb_looks (s1 s2 : CallStatus) :
  (Orb_halo s1 = Orb_halo s2 <->
   s1 = s2 \/ (isActive s1 = true /\ isActive s2 = true)) /\
  (Orb_sphere s1 = Orb_sphere s2 <->
   s1 = s2 \/ (isActive s1 = true /\ isActive s2 = true)).
Proof.
  split; split.
  - destruct s1, s2; intros H; try (left; reflexivity);
      try (right; split; reflexivity);
      apply String.eqb_eq in H; vm_compute in H; discriminate H.
  - intros [-> | [H1 H2]]; [reflexivity|].
    destruct s1, s2; try discriminate H1; try discriminate H2; reflexivity.
  - destruct s1, s2; intros H; try (left; reflexivity);
      try (right; split; reflexivity);
      apply String.eqb_eq in H; vm_compute in H; discriminate H.
  - intros [-> | [H1 H2]]; [reflexivity|].
    destruct s1, s2; try discriminate H1; try discriminate H2; reflexivity.
Qed.

Lemma Orb_looks_witness :
  Orb_halo SPEAKING = Orb_halo PROCESSING /\
  (Orb_sphere SAVING = Orb_sphere IDLE -> False).
Proof.
  split.
  - apply (Orb_looks SPEAKING PROCESSING). right. split; reflexivity.
  - intros H. apply (Orb_looks SAVING IDLE) in H.
    destruct H as [H | [H _]]; discriminate H.
Defined.

(** ** What is sent *)

Lemma truthy_session sid :
  truthy (of_nullable sid) = true -> exists s, sid = Some s /\ s <> "".
Proof.
  destruct sid as [[|c s]|]; try discriminate. intros _.
  eexists. split; [reflexivity | discriminate].
Qed.

Lemma moves_fetches st st' :
  moves st st' ->
  fetches (trace st') = fetches (trace st) \/
  exists r, fetches (trace st') = fetches (trace st) ++ [r] /\ well_formed r.
Proof.
  intros M.
  move_cases M; rewrite ?playAudio_unfold; try (apply truthy_session in Hsid as (s & Es & Hne));
    open_state st; cbn [trace sessionId] in *; subst;
    unfold hang_up_effects, pause_effects; reveal;
    rewrite ?fetches_app; cbn [fetches app]; rewrite ?app_nil_r;
    first
      [ left; reflexivity
      | right; eexists; split; [reflexivity|]; cbn [well_formed of_nullable];
        first
          [ reflexivity
          | right; split; [reflexivity|]; eexists; split; [reflexivity|]; exact Hne
          | left; split; [reflexivity|]; eexists _, _;
            split; [reflexivity|]; split; [exact Hws | exact Hne] ] ].
Qed.

Lemma requests_well_formed_kept st st' :
  moves st st' -> requests_well_formed st -> requests_well_formed st'.
Proof.
  unfold requests_well_formed. intros M H.
  destruct (moves_fetches st st' M) as [-> | (r & -> & Hr)]; [exact H|].
  apply Forall_app. split; [exact H|]. constructor; [exact Hr | constructor].
Qed.

(** X17. Every request the component ever sends is one the backend
    expects: a GET of /greet, a POST to /chat with an utterance that is
    not blank and a session id that is not empty, or a POST to /end_call
    with a session id that is not empty.  No request carries a null or
    empty session id. *)
Theorem requests_are_well_formed (w : World) :
  reachable w ->
  Forall well_formed (fetches (trace (home w))).
Proof.
  apply (reachable_invariant requests_well_formed).
  - intros now. constructor.
  - apply requests_well_formed_kept.
Qed.

Lemma requests_are_well_formed_witness :
  let w := run [EffectRuns true; ClickStart;
                Settled 0 (Resolved (Some
                  {| data_session_id := Some "S1"; data_text := "Welcome";
                     data_audio_url := "/audio/greeting.mp3";
                     data_error := JsUndefined |}));
                SilenceElapsed (Some "S1") "hello";
                ClickEnd] (mounted 0) in
  length (fetches (trace (home w))) = 3%nat /\
  Forall well_formed (fetches (trace (home w))).
Proof.
  split; [reflexivity|].
  apply requests_are_well_formed.
  unfold run. cbn [foldl]. repeat apply reach_step. apply reach_mounted.
Defined.
